(** * Waiting for a condition in a remote page

    A shallow embedding of the two halves of the "wait until the predicate
    holds" machinery:

    - the injected pollers ([MutationPoller], [RAFPoller], [IntervalPoller])
      that run inside the page and evaluate the predicate when the page
      changes, on every animation frame, or on a fixed interval;
    - the controller side ([WaitTask] and [TaskManager]) that creates a poller
      through the execution context, awaits its result, applies the timeout
      and classifies failures.

    Asynchronous methods are cut at their [await]s: the part of a method that
    runs up to a suspension is one function, the part that runs when the
    awaited call settles is another one, and the outcome of the awaited call
    (a value or a thrown error) is an input of the latter.  The event loop is
    a step function over events. *)

From Stdlib Require Import ZArith String SpecFloat.
From stdpp Require Import base option list strings pretty gmap.

(* ===================================================================== *)
(** * The fragment of JavaScript the code relies on *)
(* ===================================================================== *)

Module Js.

(** Values a predicate can produce; objects are known by identity only. *)
Inductive value :=
| VUndefined
| VNull
| VBool (b : bool)
| VNum (n : Z)
| VStr (s : string)
| VObj (h : nat).

(** [if (result)] on a value. *)
Definition truthy (v : value) : bool :=
  match v with
  | VUndefined | VNull => false
  | VBool b => b
  | VNum n => negb (n =? 0)%Z
  | VStr s => negb (String.eqb s "")
  | VObj _ => true
  end.

(** Modelled from the spec: Errors.js, which declares [TimeoutError], is not
    among the sources.  The timeout failure is a kind of error of its own
    that carries the configured duration in its message; its class and its
    message are all that is used of it. *)
Inductive error_class := ClsError | ClsTimeoutError | ClsTypeError.

(** An instance of [Error] (or of a subclass). *)
Record Error := mkError { cls : error_class; message : string }.

(** What a [catch] clause can receive and what [getBadError] returns:
    an [Error] instance, or any other value. *)
Inductive unknown :=
| UError (e : Error)
| UValue (v : value).

Definition undefined : unknown := UValue VUndefined.

(** [if (error)]: objects, hence [Error] instances, are truthy. *)
Definition is_truthy (u : unknown) : bool :=
  match u with
  | UError _ => true
  | UValue v => truthy v
  end.

(** [s.includes(sub)]. *)
Fixpoint includes (s sub : string) : bool :=
  String.prefix sub s ||
  match s with
  | EmptyString => false
  | String _ s' => includes s' sub
  end.

(** [sub] occurs somewhere in [s]. *)
Definition contains (s sub : string) : Prop :=
  ∃ pre post : string, s = pre +:+ sub +:+ post.

(** The outcome of an awaited call. *)
Inductive outcome (A : Type) :=
| Returns (a : A)
| Throws (e : unknown).
Arguments Returns {A} a.
Arguments Throws {A} e.

(** Modelled from the spec: util/DeferredPromise.js is not among the sources.
    A Deferred Result is a single-assignment future with the states
    Pending, Fulfilled(value) and Rejected(error); [resolve] and [reject] are
    each a no-op once it is settled, and [finished] reports whether it is
    settled. *)
Inductive Deferred (T : Type) :=
| Pending
| Fulfilled (v : T)
| Rejected (e : unknown).
Arguments Pending {T}.
Arguments Fulfilled {T} v.
Arguments Rejected {T} e.

Definition createDeferredPromise {T : Type} : Deferred T := Pending.

Definition resolve {T : Type} (v : T) (d : Deferred T) : Deferred T :=
  match d with
  | Pending => Fulfilled v
  | _ => d
  end.

Definition reject {T : Type} (e : unknown) (d : Deferred T) : Deferred T :=
  match d with
  | Pending => Rejected e
  | _ => d
  end.

Definition finished {T : Type} (d : Deferred T) : bool :=
  match d with
  | Pending => false
  | _ => true
  end.

(** Modelled from the spec: util/assert.js is not among the sources.
    [assert(value, message)] returns when [value] is truthy, and the value
    is from then on known to be defined; otherwise it throws an [Error] that
    carries [message].  Here [value] is the optional [#promise] field. *)
Definition assert {A : Type} (value : option A) (msg : string) : outcome A :=
  match value with
  | Some a => Returns a
  | None => Throws (UError (mkError ClsError msg))
  end.

(** ** Numbers

    A JavaScript number is an IEEE 754 double: [S754_finite s m e] is
    [(-1)^s × m × 2^e], and there are two zeros, two infinities and NaN. *)
Module Number.

Local Open Scope Z_scope.

Definition t := spec_float.

(** The number that a whole-number literal denotes: the nearest double,
    ties to the even mantissa.  It is exact up to [2^53]. *)
Definition of_Z (z : Z) : t := binary_normalize 53 1024 z 0 false.

(** [x / y]. *)
Definition div (x y : t) : t := SFdiv 53 1024 x y.

Definition NaN : t := S754_nan.
Definition Infinity : t := S754_infinity false.

Definition is_nan (x : t) : bool :=
  match x with
  | S754_nan => true
  | _ => false
  end.

(** [x === 0], which holds of [+0] and of [-0]. *)
Definition is_zero (x : t) : bool :=
  match x with
  | S754_zero _ => true
  | _ => false
  end.

(** [if (x)] on a number: [+0], [-0] and NaN are falsy. *)
Definition truthy (x : t) : bool :=
  match x with
  | S754_zero _ | S754_nan => false
  | S754_infinity _ | S754_finite _ _ _ => true
  end.

(** Positive fractions [a / b] as pairs, scaled by powers of 2 and of 10,
    and compared. *)
Definition scale2 (x : Z * Z) (e : Z) : Z * Z :=
  if 0 <=? e then (x.1 * 2 ^ e, x.2) else (x.1, x.2 * 2 ^ (- e)).
Definition scale10 (x : Z * Z) (q : Z) : Z * Z :=
  if 0 <=? q then (x.1 * 10 ^ q, x.2) else (x.1, x.2 * 10 ^ (- q)).
Definition frac_le (x y : Z * Z) : bool := x.1 * y.2 <=? y.1 * x.2.
Definition frac_lt (x y : Z * Z) : bool := x.1 * y.2 <? y.1 * x.2.

(** The decimal of [k] digits next to [v], if one lies between [low] and
    [high], the bounds within which a decimal reads back as the double
    [v]: the closer of the two neighbours of [v] among the multiples of
    [10^(nv - k)], where [10^(nv - 1) <= v < 10^nv]. *)
Definition candidate (v low high : Z * Z) (closed : bool) (nv k : Z) : option Z :=
  let q := nv - k in
  let w := scale10 v (- q) in
  let lo := w.1 / w.2 in
  let hi := lo + 1 in
  let inside (s : Z) :=
    let c := scale10 (s, 1) q in
    (if closed then frac_le low c else frac_lt low c)
    && (if closed then frac_le c high else frac_lt c high) in
  match inside lo, inside hi with
  | true, true =>
    match 2 * w.1 ?= (lo + hi) * w.2 with
    | Lt => Some lo
    | Gt => Some hi
    | Eq => Some (if Z.even lo then lo else hi)
    end
  | true, false => Some lo
  | false, true => Some hi
  | false, false => None
  end.

(** The first [k] that has such a decimal; seventeen digits tell any two
    doubles apart. *)
Fixpoint shortest (fuel : nat) (v low high : Z * Z) (closed : bool) (nv k : Z) : Z * Z :=
  match fuel with
  | O => ((scale10 v (k - nv)).1 / (scale10 v (k - nv)).2, nv - k)
  | S fuel =>
    match candidate v low high closed nv k with
    | Some s => (s, nv - k)
    | None => shortest fuel v low high closed nv (k + 1)
    end
  end.

Fixpoint strip_zeros (fuel : nat) (s q : Z) : Z * Z :=
  match fuel with
  | O => (s, q)
  | S fuel => if s mod 10 =? 0 then strip_zeros fuel (s / 10) (q + 1) else (s, q)
  end.

(** The digits of a positive double [m × 2^e] in canonical form: [(s, q)]
    with the fewest digits [s] such that [s × 10^q] reads back as the
    double, which is every decimal between the midpoints to the
    neighbouring doubles, the midpoints included when [m] is even; the
    double below a power of two is half as far away as the one above. *)
Definition shortest_decimal (m : positive) (e : Z) : Z * Z :=
  let v := scale2 (Zpos m, 1) e in
  let boundary := (Zpos m =? 2 ^ 52) && (-1074 <? e) in
  let low := scale2 (4 * Zpos m - (if boundary then 1 else 2), 1) (e - 2) in
  let high := scale2 (4 * Zpos m + 2, 1) (e - 2) in
  let j := (Z.log2 (Zpos m) + e) * 30103 / 100000 in
  let nv := if frac_le (scale10 (1, 1) (j + 1)) v then j + 2
            else if frac_le (scale10 (1, 1) j) v then j + 1 else j in
  let r := shortest 17 v low high (Z.even (Zpos m)) nv 1 in
  strip_zeros 17 r.1 r.2.

Fixpoint zeros (n : nat) : string :=
  match n with
  | O => EmptyString
  | S n => "0" +:+ zeros n
  end.

(** The text of [s × 10^q], where [s] has [k] digits and [n = k + q]:
    plain digits when [-6 < n <= 21], with a point where it falls, and the
    exponent form otherwise. *)
Definition decimal_toString (s q : Z) : string :=
  let ds := pretty s in
  let k := Z.of_nat (String.length ds) in
  let n := k + q in
  if (-6 <? n) && (n <=? 21) then
    if k <=? n then ds +:+ zeros (Z.to_nat (n - k))
    else if 0 <? n
      then substring 0 (Z.to_nat n) ds +:+ "." +:+ substring (Z.to_nat n) (Z.to_nat (k - n)) ds
      else "0." +:+ zeros (Z.to_nat (- n)) +:+ ds
  else
    (if k =? 1 then ds
     else substring 0 1 ds +:+ "." +:+ substring 1 (Z.to_nat (k - 1)) ds)
    +:+ "e" +:+ (if n - 1 <? 0 then "-" else "+") +:+ pretty (Z.abs (n - 1)).

(** [String(x)] and [`${x}`] for a number [x]: Number::toString in radix
    10.  A mantissa and exponent that are not in canonical form stand for
    the double they round to. *)
Definition toString (x : t) : string :=
  match x with
  | S754_nan => "NaN"
  | S754_zero _ => "0"
  | S754_infinity s => if s then "-Infinity" else "Infinity"
  | S754_finite s m e =>
    match binary_normalize 53 1024 (Zpos m) e false with
    | S754_finite _ m e =>
      let r := shortest_decimal m e in
      (if s then "-" else EmptyString) +:+ decimal_toString r.1 r.2
    | S754_infinity _ => if s then "-Infinity" else "Infinity"
    | _ => "0"
    end
  end.

End Number.

(** A whole number written where a number is expected is that literal. *)
Coercion Number.of_Z : Z >-> Number.t.

End Js.
Import Js.

(* ===================================================================== *)
(** * The injected pollers (injected/Poller.ts) *)
(* ===================================================================== *)

(** What a poller asks of the page that hosts it, in program order. *)
Inductive host_call :=
| CallFn                                   (* this.#fn() *)
| Observe (root : nat) (childList subtree attributes : bool)
                                           (* new MutationObserver(cb).observe(root, {...}) *)
| Disconnect (o : nat)                     (* observer.disconnect() *)
| RequestAnimationFrame                    (* window.requestAnimationFrame(poll) *)
| SetInterval (ms : Z)                     (* setInterval(cb, ms) *)
| ClearInterval (i : nat).                 (* clearInterval(interval) *)

(** The page as far as a poller can see and change it.  Deferred promises,
    observers and interval timers are objects, named by their index; a
    callback is known by the [promise] its closure captured. *)
Record Page := mkPage {
  promises : list (Deferred value);        (* made by createDeferredPromise *)
  observers : list (nat * option nat);     (* captured promise, observed root while connected *)
  frames : list nat;                       (* queued animation-frame callbacks: captured promise *)
  intervals : list (nat * Z * bool);       (* captured promise, period, still active *)
  calls : list host_call
}.

Definition empty_page : Page := mkPage [] [] [] [] [].

Definition set_promises (f : list (Deferred value) → list (Deferred value)) (g : Page) : Page :=
  mkPage (f (promises g)) (observers g) (frames g) (intervals g) (calls g).
Definition set_observers (f : list (nat * option nat) → list (nat * option nat)) (g : Page) : Page :=
  mkPage (promises g) (f (observers g)) (frames g) (intervals g) (calls g).
Definition set_frames (f : list nat → list nat) (g : Page) : Page :=
  mkPage (promises g) (observers g) (f (frames g)) (intervals g) (calls g).
Definition set_intervals (f : list (nat * Z * bool) → list (nat * Z * bool)) (g : Page) : Page :=
  mkPage (promises g) (observers g) (frames g) (f (intervals g)) (calls g).
Definition call (c : host_call) (g : Page) : Page :=
  mkPage (promises g) (observers g) (frames g) (intervals g) (calls g ++ [c]).

(** [promise.finished()], [promise.resolve(v)], [promise.reject(e)] through a
    reference. *)
Definition finished_at (r : nat) (g : Page) : bool :=
  match promises g !! r with
  | Some d => finished d
  | None => false
  end.
Definition resolve_at (r : nat) (v : value) (g : Page) : Page :=
  set_promises (alter (resolve v) r) g.
Definition reject_at (r : nat) (e : unknown) (g : Page) : Page :=
  set_promises (alter (reject e) r) g.

(** How an asynchronous method ends: its promise fulfils or rejects. *)
Inductive completion :=
| Normal
| Abrupt (e : unknown).

Definition polling_stopped : unknown := UError (mkError ClsError "Polling stopped").
Definition never_started : string := "Polling never started.".

(** The first statements of every [start()], up to the suspension at
    [await this.#fn()]: the deferred promise is created and the predicate is
    called.  Returns the local [promise]. *)
Definition begin_start (g : Page) : nat * Page :=
  (length (promises g), call CallFn (set_promises (λ ps, ps ++ [createDeferredPromise]) g)).

(** ** class MutationPoller *)
Module MutationPoller.

Record t := mk {
  root : nat;                              (* #root *)
  observer : option nat;                   (* #observer *)
  promise : option nat                     (* #promise *)
}.

Definition new (root : nat) : t := mk root None None.

(** [start()] up to [await this.#fn()]. *)
Definition start_call (s : t * Page) : nat * (t * Page) :=
  let '(p, g) := s in
  let '(r, g) := begin_start g in
  (r, (mk (root p) (observer p) (Some r), g)).

(** [stop()]; the method has no suspension. *)
Definition stop (s : t * Page) : completion * (t * Page) :=
  let '(p, g) := s in
  match assert (promise p) never_started with
  | Throws e => (Abrupt e, s)
  | Returns r =>
    let g := if negb (finished_at r g) then reject_at r polling_stopped g else g in
    match observer p with
    | Some o =>
      (Normal, (mk (root p) None (promise p),
                call (Disconnect o) (set_observers (alter (λ ob, (ob.1, None)) o) g)))
    | None => (Normal, (p, g))
    end
  end.

(** [start()] after the predicate settled with [o]; [r] is the local
    [promise]. *)
Definition start_resume (r : nat) (o : outcome value) (s : t * Page) : completion * (t * Page) :=
  let '(p, g) := s in
  match o with
  | Throws e => (Abrupt e, s)
  | Returns result =>
    if truthy result then (Normal, (p, resolve_at r result g))
    else
      let ob := length (observers g) in
      (Normal, (mk (root p) (Some ob) (promise p),
                call (Observe (root p) true true true)
                     (set_observers (λ obs, obs ++ [(r, Some (root p))]) g)))
  end.

(** [start()] when nothing else runs while the predicate is evaluated. *)
Definition start (o : outcome value) (s : t * Page) : completion * (t * Page) :=
  let '(r, s) := start_call s in start_resume r o s.

(** The observer's callback: one call of the predicate per notification
    batch, then, once it settled with [o], the rest of the callback. *)
Definition notify_call (s : t * Page) : t * Page :=
  (s.1, call CallFn s.2).

Definition notify_resume (r : nat) (o : outcome value) (s : t * Page) : completion * (t * Page) :=
  let '(p, g) := s in
  match o with
  | Throws e => (Abrupt e, s)
  | Returns result =>
    if negb (truthy result) then (Normal, s)
    else stop (p, resolve_at r result g)
  end.

(** [result()]. *)
Definition result (s : t * Page) : outcome nat :=
  assert (promise s.1) never_started.

End MutationPoller.

(** ** class RAFPoller *)
Module RAFPoller.

Record t := mk {
  promise : option nat                     (* #promise *)
}.

Definition new : t := mk None.

Definition start_call (s : t * Page) : nat * (t * Page) :=
  let '(p, g) := s in
  let '(r, g) := begin_start g in
  (r, (mk (Some r), g)).

Definition stop (s : t * Page) : completion * (t * Page) :=
  let '(p, g) := s in
  match assert (promise p) never_started with
  | Throws e => (Abrupt e, s)
  | Returns r =>
    (Normal, (p, if negb (finished_at r g) then reject_at r polling_stopped g else g))
  end.

Definition start_resume (r : nat) (o : outcome value) (s : t * Page) : completion * (t * Page) :=
  let '(p, g) := s in
  match o with
  | Throws e => (Abrupt e, s)
  | Returns result =>
    if truthy result then (Normal, (p, resolve_at r result g))
    else (Normal, (p, call RequestAnimationFrame (set_frames (λ fs, fs ++ [r]) g)))
  end.

Definition start (o : outcome value) (s : t * Page) : completion * (t * Page) :=
  let '(r, s) := start_call s in start_resume r o s.

(** The closure [poll], whose [promise] is [r], up to its suspension;
    [None] when it returns at once because the promise is finished. *)
Definition poll_call (r : nat) (s : t * Page) : option (t * Page) :=
  if finished_at r s.2 then None else Some (s.1, call CallFn s.2).

Definition poll_resume (r : nat) (o : outcome value) (s : t * Page) : completion * (t * Page) :=
  let '(p, g) := s in
  match o with
  | Throws e => (Abrupt e, s)
  | Returns result =>
    if negb (truthy result)
    then (Normal, (p, call RequestAnimationFrame (set_frames (λ fs, fs ++ [r]) g)))
    else stop (p, resolve_at r result g)
  end.

(** The page runs the oldest queued frame callback; the result says whether
    the callback is now suspended on the predicate, and with which
    [promise]. *)
Definition next_frame (s : t * Page) : option nat * (t * Page) :=
  match frames s.2 with
  | [] => (None, s)
  | r :: rest =>
    let s' := (s.1, set_frames (λ _, rest) s.2) in
    match poll_call r s' with
    | Some s'' => (Some r, s'')
    | None => (None, s')
    end
  end.

Definition result (s : t * Page) : outcome nat :=
  assert (promise s.1) never_started.

End RAFPoller.

(** ** class IntervalPoller *)
Module IntervalPoller.

Record t := mk {
  ms : Z;                                  (* #ms *)
  interval : option nat;                   (* #interval *)
  promise : option nat                     (* #promise *)
}.

Definition new (ms : Z) : t := mk ms None None.

Definition start_call (s : t * Page) : nat * (t * Page) :=
  let '(p, g) := s in
  let '(r, g) := begin_start g in
  (r, (mk (ms p) (interval p) (Some r), g)).

Definition stop (s : t * Page) : completion * (t * Page) :=
  let '(p, g) := s in
  match assert (promise p) never_started with
  | Throws e => (Abrupt e, s)
  | Returns r =>
    let g := if negb (finished_at r g) then reject_at r polling_stopped g else g in
    match interval p with
    | Some i =>
      (Normal, (mk (ms p) None (promise p),
                call (ClearInterval i) (set_intervals (alter (λ tm, (tm.1, false)) i) g)))
    | None => (Normal, (p, g))
    end
  end.

Definition start_resume (r : nat) (o : outcome value) (s : t * Page) : completion * (t * Page) :=
  let '(p, g) := s in
  match o with
  | Throws e => (Abrupt e, s)
  | Returns result =>
    if truthy result then (Normal, (p, resolve_at r result g))
    else
      let i := length (intervals g) in
      (Normal, (mk (ms p) (Some i) (promise p),
                call (SetInterval (ms p))
                     (set_intervals (λ tms, tms ++ [(r, ms p, true)]) g)))
  end.

Definition start (o : outcome value) (s : t * Page) : completion * (t * Page) :=
  let '(r, s) := start_call s in start_resume r o s.

(** The interval's callback, cut at [await this.#fn()]. *)
Definition tick_call (s : t * Page) : t * Page :=
  (s.1, call CallFn s.2).

Definition tick_resume (r : nat) (o : outcome value) (s : t * Page) : completion * (t * Page) :=
  let '(p, g) := s in
  match o with
  | Throws e => (Abrupt e, s)
  | Returns result =>
    if negb (truthy result) then (Normal, s)
    else stop (p, resolve_at r result g)
  end.

Definition result (s : t * Page) : outcome nat :=
  assert (promise s.1) never_started.

End IntervalPoller.

(** ** interface Poller: the three classes behind one type *)
Inductive poller :=
| OfMutation (p : MutationPoller.t)
| OfRAF (p : RAFPoller.t)
| OfInterval (p : IntervalPoller.t).

(** The field [#promise] of any of them. *)
Definition promise_of (p : poller) : option nat :=
  match p with
  | OfMutation p => MutationPoller.promise p
  | OfRAF p => RAFPoller.promise p
  | OfInterval p => IntervalPoller.promise p
  end.

Definition lift {P : Type} (inj : P → poller) (r : completion * (P * Page)) : completion * (poller * Page) :=
  (r.1, (inj r.2.1, r.2.2)).

Definition start (o : outcome value) (s : poller * Page) : completion * (poller * Page) :=
  match s.1 with
  | OfMutation p => lift OfMutation (MutationPoller.start o (p, s.2))
  | OfRAF p => lift OfRAF (RAFPoller.start o (p, s.2))
  | OfInterval p => lift OfInterval (IntervalPoller.start o (p, s.2))
  end.

Definition stop (s : poller * Page) : completion * (poller * Page) :=
  match s.1 with
  | OfMutation p => lift OfMutation (MutationPoller.stop (p, s.2))
  | OfRAF p => lift OfRAF (RAFPoller.stop (p, s.2))
  | OfInterval p => lift OfInterval (IntervalPoller.stop (p, s.2))
  end.

Definition result (s : poller * Page) : outcome nat :=
  match s.1 with
  | OfMutation p => MutationPoller.result (p, s.2)
  | OfRAF p => RAFPoller.result (p, s.2)
  | OfInterval p => IntervalPoller.result (p, s.2)
  end.

(** Some observer is connected, some frame callback is queued or some
    interval is active. *)
Definition armed (g : Page) : bool :=
  existsb (λ ob, match ob.2 with Some _ => true | None => false end) (observers g)
  || match frames g with [] => false | _ :: _ => true end
  || existsb (λ tm, tm.2) (intervals g).

(** A call that registers a watch with the page. *)
Definition arms (c : host_call) : bool :=
  match c with
  | Observe _ _ _ _ | RequestAnimationFrame | SetInterval _ => true
  | CallFn | Disconnect _ | ClearInterval _ => false
  end.

(** The three ways to make a poller. *)
Inductive variant :=
| MutationWatch (root : nat)
| AnimationFrame
| FixedInterval (ms : Z).

Definition new_poller (v : variant) : poller :=
  match v with
  | MutationWatch root => OfMutation (MutationPoller.new root)
  | AnimationFrame => OfRAF RAFPoller.new
  | FixedInterval ms => OfInterval (IntervalPoller.new ms)
  end.

(** The field that holds the handle of the watch; [RAFPoller] has none. *)
Definition watch_of (p : poller) : option nat :=
  match p with
  | OfMutation p => MutationPoller.observer p
  | OfRAF _ => None
  | OfInterval p => IntervalPoller.interval p
  end.

(** After [stop()] nothing of the poller is registered with the page any
    more. *)
Definition stop_disarms (s : poller * Page) : Prop :=
  armed (stop s).2.2 = false.

(** ** The pollers at work *)

(** [start()] cut at its suspension, for any of the three classes. *)
Definition start_call (s : poller * Page) : nat * (poller * Page) :=
  match s.1 with
  | OfMutation p =>
    let r := MutationPoller.start_call (p, s.2) in (r.1, (OfMutation r.2.1, r.2.2))
  | OfRAF p =>
    let r := RAFPoller.start_call (p, s.2) in (r.1, (OfRAF r.2.1, r.2.2))
  | OfInterval p =>
    let r := IntervalPoller.start_call (p, s.2) in (r.1, (OfInterval r.2.1, r.2.2))
  end.

Definition start_resume (r : nat) (o : outcome value) (s : poller * Page) : completion * (poller * Page) :=
  match s.1 with
  | OfMutation p => lift OfMutation (MutationPoller.start_resume r o (p, s.2))
  | OfRAF p => lift OfRAF (RAFPoller.start_resume r o (p, s.2))
  | OfInterval p => lift OfInterval (IntervalPoller.start_resume r o (p, s.2))
  end.

(** The page calls the poller back once, and the callback runs to its end
    before anything else does, the predicate settling with [o]: the
    callback of the observer that the poller holds, if it is connected; the
    oldest queued frame callback; the callback of the interval that the
    poller holds, if it is active. *)
Definition fire (o : outcome value) (s : poller * Page) : completion * (poller * Page) :=
  match s.1 with
  | OfMutation p =>
    match MutationPoller.observer p with
    | Some ob =>
      match observers s.2 !! ob with
      | Some (r, Some _) =>
        lift OfMutation (MutationPoller.notify_resume r o (MutationPoller.notify_call (p, s.2)))
      | _ => (Normal, s)
      end
    | None => (Normal, s)
    end
  | OfRAF p =>
    match RAFPoller.next_frame (p, s.2) with
    | (Some r, s') => lift OfRAF (RAFPoller.poll_resume r o s')
    | (None, s') => (Normal, (OfRAF s'.1, s'.2))
    end
  | OfInterval p =>
    match IntervalPoller.interval p with
    | Some i =>
      match intervals s.2 !! i with
      | Some (r, _, true) =>
        lift OfInterval (IntervalPoller.tick_resume r o (IntervalPoller.tick_call (p, s.2)))
      | _ => (Normal, s)
      end
    | None => (Normal, s)
    end
  end.

(** One callback after the other, with the outcomes [os] of the predicate. *)
Definition fires (os : list (outcome value)) (s : poller * Page) : poller * Page :=
  foldl (λ s o, (fire o s).2) s os.

(** How often the predicate was called. *)
Definition evaluations (g : Page) : nat :=
  length (List.filter (λ c, match c with CallFn => true | _ => false end) (calls g)).

(** A poller of variant [vr] that was started in a page of its own when
    the predicate was not truthy yet, and that is still watching, after the
    host calls [c]. *)
Definition watching (vr : variant) (c : list host_call) : poller * Page :=
  match vr with
  | MutationWatch root =>
    (OfMutation (MutationPoller.mk root (Some 0) (Some 0)),
     mkPage [Pending] [(0, Some root)] [] [] c)
  | AnimationFrame =>
    (OfRAF (RAFPoller.mk (Some 0)), mkPage [Pending] [] [0] [] c)
  | FixedInterval ms =>
    (OfInterval (IntervalPoller.mk ms (Some 0) (Some 0)),
     mkPage [Pending] [] [] [(0, ms, true)] c)
  end.

(** The same poller once its promise is [d] and its watch is gone. *)
Definition at_rest (vr : variant) (d : Deferred value) (c : list host_call) : poller * Page :=
  match vr with
  | MutationWatch root =>
    (OfMutation (MutationPoller.mk root None (Some 0)), mkPage [d] [(0, None)] [] [] c)
  | AnimationFrame =>
    (OfRAF (RAFPoller.mk (Some 0)), mkPage [d] [] [] [] c)
  | FixedInterval ms =>
    (OfInterval (IntervalPoller.mk ms None (Some 0)), mkPage [d] [] [] [(0, ms, false)] c)
  end.

(** The promise [r] of the page is fulfilled with [v]. *)
Definition resolved_with (v : value) (r : nat) (g : Page) : Prop :=
  promises g !! r = Some (Fulfilled v).

(* ===================================================================== *)
(** * The controller side: WaitTask and TaskManager *)
(* ===================================================================== *)

Module WaitTask.

(** [polling: 'raf' | 'mutation' | number]. *)
Inductive Polling :=
| Raf
| Mutation
| Every (ms : Z).

(** A function to expose to the page; only its [name] is read. *)
Record Binding := mkBinding { name : string; ident : nat }.

Record WaitTaskOptions := mkOptions {
  opt_bindings : option (list Binding);    (* bindings?: Set<...> *)
  opt_polling : Polling;
  opt_root : option nat;                   (* root?: ElementHandle<Node> *)
  opt_timeout : Number.t                   (* timeout: number *)
}.
Arguments mkOptions opt_bindings opt_polling opt_root opt_timeout%_Z.

(** The predicate as given: source text of an expression, or a function,
    of which only [fn.toString()] is used. *)
Inductive Fn :=
| FnString (s : string)
| FnFunction (source : string).

(** The fields of a [WaitTask] object.  [#world] is the one world below;
    [#result] refers to a deferred promise, [#timeout] to a timer and
    [#poller] to a handle of the execution context. *)
Record t := mk {
  bindings : list Binding;
  polling : Polling;
  root : option nat;
  fn : string;
  args : list value;
  timeout : option nat;
  result : nat;
  poller : option nat
}.

(** The code a task evaluates in the page to make its poller. *)
Inductive create_request :=
| NewRAFPoller (fn : string) (args : list value)
| NewMutationPoller (root : option nat) (fn : string) (args : list value)
| NewIntervalPoller (ms : Z) (fn : string) (args : list value).

(** The calls into the execution context a method can be suspended on. *)
Inductive awaited :=
| ExecutionContext                         (* rerun: this.#world.executionContext() *)
| AddBindings (context : nat) (names : list string)
                                           (* rerun: Promise.all(... _addBindingToContext(context, name)) *)
| PuppeteerUtil                            (* rerun: this.#world.puppeteerUtil *)
| EvaluateHandle (req : create_request)    (* rerun: this.#world.evaluateHandle(...) *)
| PollerStart (h : nat)                    (* rerun: this.#poller.evaluate(poller => poller.start()) *)
| PollerResult (h : nat)                   (* rerun: this.#poller.evaluateHandle(poller => poller.result()) *)
| PollerStop (h : nat)                     (* terminate: this.#poller.evaluateHandle(poller => poller.stop()) *)
| Dispose (h : nat).                       (* terminate: this.#poller.dispose() *)

(** A [setTimeout] timer of a task: the closure holds [this] and
    [options.timeout], which is also the delay. *)
Record Timer := mkTimer { owner : nat; delay : Number.t; live : bool }.
Arguments mkTimer owner delay%_Z live.

(** An isolated world with its task manager, the objects of the tasks made
    in it, the timers, and the asynchronous calls in flight. *)
Record World := mkWorld {
  tasks : list t;                          (* the WaitTask objects, by identity *)
  results : list (Deferred nat);           (* the deferred promises made by createDeferredPromise *)
  taskManager : list nat;                  (* TaskManager.#tasks, in insertion order *)
  boundFunctions : gmap string Binding;    (* world._boundFunctions *)
  timers : list Timer;
  awaiting : list (option (nat * awaited)) (* suspended methods: task and awaited call *)
}.

Definition empty_world : World := mkWorld [] [] [] ∅ [] [].

Definition set_tasks (f : list t → list t) (w : World) : World :=
  mkWorld (f (tasks w)) (results w) (taskManager w) (boundFunctions w) (timers w) (awaiting w).
Definition set_results (f : list (Deferred nat) → list (Deferred nat)) (w : World) : World :=
  mkWorld (tasks w) (f (results w)) (taskManager w) (boundFunctions w) (timers w) (awaiting w).
Definition set_taskManager (f : list nat → list nat) (w : World) : World :=
  mkWorld (tasks w) (results w) (f (taskManager w)) (boundFunctions w) (timers w) (awaiting w).
Definition set_boundFunctions (f : gmap string Binding → gmap string Binding) (w : World) : World :=
  mkWorld (tasks w) (results w) (taskManager w) (f (boundFunctions w)) (timers w) (awaiting w).
Definition set_timers (f : list Timer → list Timer) (w : World) : World :=
  mkWorld (tasks w) (results w) (taskManager w) (boundFunctions w) (f (timers w)) (awaiting w).
Definition set_awaiting (f : list (option (nat * awaited)) → list (option (nat * awaited))) (w : World) : World :=
  mkWorld (tasks w) (results w) (taskManager w) (boundFunctions w) (timers w) (f (awaiting w)).

Definition set_timeout (k : option nat) (T : t) : t :=
  mk (bindings T) (polling T) (root T) (fn T) (args T) k (result T) (poller T).
Definition set_poller (h : option nat) (T : t) : t :=
  mk (bindings T) (polling T) (root T) (fn T) (args T) (timeout T) (result T) h.

(** An asynchronous method of task [t] reaches [await] on the call [a]. *)
Definition suspend (t : nat) (a : awaited) (w : World) : World :=
  set_awaiting (λ l, l ++ [Some (t, a)]) w.

(** ** class TaskManager: add and delete *)

Definition add (t : nat) (w : World) : World :=
  set_taskManager (λ s, if bool_decide (t ∈ s) then s else s ++ [t]) w.

Definition delete (t : nat) (w : World) : World :=
  set_taskManager (filter (λ x, x ≠ t)) w.

(** ** class WaitTask *)

Definition clearTimeout (k : nat) (w : World) : World :=
  set_timers (alter (λ tm, mkTimer (owner tm) (delay tm) false) k) w.

Definition result_finished (r : nat) (w : World) : bool :=
  match results w !! r with
  | Some d => finished d
  | None => false
  end.

(** [terminate(error)] up to its first suspension; [terminate()] is
    [terminate undefined]. *)
Definition terminate (t : nat) (error : unknown) (w : World) : World :=
  match tasks w !! t with
  | None => w
  | Some T =>
    let w := delete t w in
    let w := match timeout T with
             | Some k => clearTimeout k w
             | None => w
             end in
    let w := if is_truthy error && negb (result_finished (result T) w)
             then set_results (alter (reject error) (result T)) w
             else w in
    match poller T with
    | Some h => suspend t (PollerStop h) w
    | None => w
    end
  end.

Definition detached_frame : string := "Execution context is not available in detached frame".
Definition context_destroyed : string := "Execution context was destroyed".
Definition context_not_found : string := "Cannot find context with specified id".
Definition frame_detached : Error := mkError ClsError "Waiting failed: Frame detached".

Definition getBadError (error : unknown) : unknown :=
  match error with
  | UError e =>
    if includes (message e) detached_frame then UError frame_detached
    else if includes (message e) context_destroyed then undefined
    else if includes (message e) context_not_found then undefined
    else error
  | UValue _ => error
  end.

(** The [catch] clause of [rerun]. *)
Definition catch (t : nat) (error : unknown) (w : World) : World :=
  let badError := getBadError error in
  if is_truthy badError then terminate t badError w else w.

(** [switch (this.#polling)]: the poller to make. *)
Definition request_of (T : t) : create_request :=
  match polling T with
  | Raf => NewRAFPoller (fn T) (args T)
  | Mutation => NewMutationPoller (root T) (fn T) (args T)
  | Every ms => NewIntervalPoller ms (fn T) (args T)
  end.

(** [rerun()] up to its first suspension. *)
Definition rerun (t : nat) (w : World) : World :=
  match tasks w !! t with
  | None => w
  | Some T =>
    match bindings T with
    | _ :: _ => suspend t ExecutionContext w
    | [] => suspend t PuppeteerUtil w
    end
  end.

(** Reading a property of [this.#poller] when the field is undefined. *)
Definition poller_undefined : Error :=
  mkError ClsTypeError "Cannot read properties of undefined (reading 'evaluateHandle')".

(** A method of task [t] that was suspended on [a] goes on with the outcome
    [o] of that call, up to its next suspension or its end. *)
Definition resume (t : nat) (a : awaited) (o : outcome nat) (w : World) : World :=
  match tasks w !! t with
  | None => w
  | Some T =>
    match a, o with
    | ExecutionContext, Returns context =>
      suspend t (AddBindings context (map name (bindings T))) w
    | AddBindings _ _, Returns _ =>
      suspend t PuppeteerUtil w
    | PuppeteerUtil, Returns _ =>
      suspend t (EvaluateHandle (request_of T)) w
    | EvaluateHandle _, Returns h =>
      suspend t (PollerStart h) (set_tasks (alter (set_poller (Some h)) t) w)
    | PollerStart _, Returns _ =>
      match poller T with
      | Some h => suspend t (PollerResult h) w
      | None => catch t (UError poller_undefined) w
      end
    | PollerResult _, Returns result =>
      terminate t undefined (set_results (alter (resolve result) (WaitTask.result T)) w)
    | ExecutionContext, Throws e
    | AddBindings _ _, Throws e
    | PuppeteerUtil, Throws e
    | EvaluateHandle _, Throws e
    | PollerStart _, Throws e
    | PollerResult _, Throws e =>
      catch t e w
    | PollerStop _, Returns _ =>
      match poller T with
      | Some h => suspend t (Dispose h) w
      | None => w
      end
    | Dispose _, Returns _ =>
      set_tasks (alter (set_poller None) t) w
    | PollerStop _, Throws _
    | Dispose _, Throws _ =>
      w
    end
  end.

(** The error that the timer's callback makes:
    [new TimeoutError(`Waiting failed: ${options.timeout}ms exceeded`)];
    the template turns the number into text. *)
Definition timeout_error (ms : Number.t) : Error :=
  mkError ClsTimeoutError ("Waiting failed: " +:+ Number.toString ms +:+ "ms exceeded").

(** [new WaitTask(world, options, fn, ...args)]; returns the new task. *)
Definition constructor (options : WaitTaskOptions) (f : Fn) (args : list value) (w : World) : nat * World :=
  let t := length (tasks w) in
  let T := mk (default [] (opt_bindings options)) (opt_polling options) (opt_root options)
              (match f with
               | FnString s => "() => {return (" +:+ s +:+ ");}"
               | FnFunction source => source
               end)
              args None (length (results w)) None in
  let w := set_results (λ l, l ++ [createDeferredPromise]) (set_tasks (λ l, l ++ [T]) w) in
  let w := add t w in
  let w := if Number.truthy (opt_timeout options)
           then set_tasks (alter (set_timeout (Some (length (timers w)))) t)
                  (set_timers (λ l, l ++ [mkTimer t (opt_timeout options) true]) w)
           else w in
  let w := match bindings T with
           | _ :: _ => set_boundFunctions (λ m, foldl (λ m b, <[name b := b]> m) m (bindings T)) w
           | [] => w
           end in
  (t, rerun t w).

(** ** class TaskManager: bulk operations *)

(** [terminateAll(error)]; no error given is [undefined].  A [terminate]
    removes only its own task from the set, so the loop visits every task
    that was registered when it began. *)
Definition terminateAll (error : option Error) (w : World) : World :=
  let e := match error with Some e => UError e | None => undefined end in
  set_taskManager (λ _, []) (foldl (λ w t, terminate t e w) w (taskManager w)).

Definition rerunAll (w : World) : World :=
  foldl (λ w t, rerun t w) w (taskManager w).

(** ** The event loop *)

Inductive event :=
| Construct (options : WaitTaskOptions) (f : Fn) (args : list value)
| Settle (k : nat) (o : outcome nat)       (* the call awaited by awaiting[k] settles *)
| Timeout (k : nat)                        (* timer k expires *)
| Terminate (t : nat) (error : unknown)    (* task.terminate(error) *)
| Rerun (t : nat)                          (* task.rerun() *)
| TerminateAll (error : option Error)
| RerunAll.

Definition step (w : World) (ev : event) : World :=
  match ev with
  | Construct options f args => (constructor options f args w).2
  | Settle k o =>
    match awaiting w !! k with
    | Some (Some (t, a)) => resume t a o (set_awaiting (<[k := None]>) w)
    | _ => w
    end
  | Timeout k =>
    match timers w !! k with
    | Some tm =>
      if live tm
      then terminate (owner tm) (UError (timeout_error (delay tm)))
             (set_timers (<[k := mkTimer (owner tm) (delay tm) false]>) w)
      else w
    | None => w
    end
  | Terminate t error => terminate t error w
  | Rerun t => rerun t w
  | TerminateAll error => terminateAll error w
  | RerunAll => rerunAll w
  end.

Definition run (w : World) (evs : list event) : World := foldl step w evs.

(** The worlds the event loop can be in. *)
Definition reachable (w : World) : Prop := ∃ evs, w = run empty_world evs.

(** ** Notions used to state the properties *)

(** The suspensions of [rerun], as opposed to those of [terminate]. *)
Definition in_rerun (a : awaited) : bool :=
  match a with
  | PollerStop _ | Dispose _ => false
  | _ => true
  end.

(** The errors after which the task is to be run again: the context was
    destroyed or cannot be found, and the frame is not detached. *)
Definition recoverable (e : Error) : Prop :=
  ¬ contains (message e) detached_frame
  ∧ (contains (message e) context_destroyed ∨ contains (message e) context_not_found).

(** How many steps of a run take the deferred promise [r] from pending to
    settled. *)
Fixpoint settlements (r : nat) (w : World) (evs : list event) : nat :=
  match evs with
  | [] => 0
  | ev :: evs =>
    (if negb (result_finished r w) && result_finished r (step w ev) then 1 else 0)
    + settlements r (step w ev) evs
  end.

(** How many deferred promises an event creates. *)
Definition created (ev : event) : nat :=
  match ev with
  | Construct _ _ _ => 1
  | _ => 0
  end.

(** All the fields of a task but [#poller] are set by the constructor. *)
Definition same_task (T T' : t) : Prop :=
  set_poller None T' = set_poller None T.

(** From [w] to [w']: no task and no deferred promise is dropped, the tasks
    keep the fields that the constructor set, a settled promise keeps its
    settlement, and the task manager takes in new tasks only. *)
Definition evolves (w w' : World) : Prop :=
  (∀ t T, tasks w !! t = Some T → ∃ T', tasks w' !! t = Some T' ∧ same_task T T')
  ∧ (∀ r d, results w !! r = Some d →
       ∃ d', results w' !! r = Some d' ∧ (finished d = true → d' = d))
  ∧ (∀ x, x ∈ taskManager w' → x ∈ taskManager w ∨ length (tasks w) ≤ x).

(** What holds of every reachable world: each task has its own deferred
    promise, a timer that can still expire belongs to a task that holds it
    in [#timeout] and whose result is pending, and the task manager and the
    timers only know tasks that exist. *)
Record wf (w : World) : Prop := mkWf {
  wf_results : length (results w) = length (tasks w);
  wf_result : ∀ t T, tasks w !! t = Some T → result T = t;
  wf_timer : ∀ k tm, timers w !! k = Some tm → live tm = true →
    ∃ T, tasks w !! owner tm = Some T ∧ timeout T = Some k
         ∧ results w !! result T = Some Pending;
  wf_owner : ∀ k tm, timers w !! k = Some tm → owner tm < length (tasks w);
  wf_manager : ∀ t, t ∈ taskManager w → t < length (tasks w)
}.

(** The call on which a run of the task is first suspended. *)
Definition first_await (T : t) : awaited :=
  match bindings T with
  | [] => PuppeteerUtil
  | _ :: _ => ExecutionContext
  end.

(** The events of a run of task [T] in which every call succeeds, when the
    run was started with [awaiting] of length [k] and nothing else happens
    meanwhile: the context and the bindings if there are any, then the
    utilities, the handle [h] of the new poller, its start, the handle
    [value] of its result, its stop and its disposal. *)
Definition successful_run (T : t) (k : nat) (context h value : nat) : list event :=
  match bindings T with
  | [] =>
    [Settle k (Returns 0); Settle (k + 1) (Returns h); Settle (k + 2) (Returns 0);
     Settle (k + 3) (Returns value); Settle (k + 4) (Returns 0); Settle (k + 5) (Returns 0)]
  | _ :: _ =>
    [Settle k (Returns context); Settle (k + 1) (Returns 0);
     Settle (k + 2) (Returns 0); Settle (k + 3) (Returns h); Settle (k + 4) (Returns 0);
     Settle (k + 5) (Returns value); Settle (k + 6) (Returns 0); Settle (k + 7) (Returns 0)]
  end.

(** What holds of the task manager in every reachable world: it holds no
    task twice, the tasks it holds have a pending result, and a timer that
    can still expire belongs to a task it holds. *)
Record tidy (w : World) : Prop := mkTidy {
  tidy_nodup : NoDup (taskManager w);
  tidy_pending : ∀ t, t ∈ taskManager w →
    ∃ T, tasks w !! t = Some T ∧ results w !! result T = Some Pending;
  tidy_timer : ∀ k tm, timers w !! k = Some tm → live tm = true →
    owner tm ∈ taskManager w
}.

(** From [w] to [w']: the timers stay, and those that were cancelled or
    have expired stay so. *)
Definition timers_fade (w w' : World) : Prop :=
  ∀ k tm, timers w !! k = Some tm →
    ∃ tm', timers w' !! k = Some tm' ∧ owner tm' = owner tm ∧ delay tm' = delay tm
           ∧ (live tm' = true → live tm = true).

(** A second [terminate(error)] changes nothing. *)
Definition terminate_idempotent (t : nat) (error : unknown) (w : World) : Prop :=
  terminate t error (terminate t error w) = terminate t error w.

(** The constructor has armed a timer for the task it made. *)
Definition timer_armed (options : WaitTaskOptions) (f : Fn) (args : list value) (w : World) : Prop :=
  ∃ k tm, timers (constructor options f args w).2 !! k = Some tm
          ∧ owner tm = (constructor options f args w).1 ∧ live tm = true.
End WaitTask.

(* ===================================================================== *)
(** * Properties *)
(* ===================================================================== *)

(** ** Strings and deferred promises *)
Section Basics.

Lemma prefix_app (a s : string) :
  String.prefix a s = true ↔ ∃ post, s = a +:+ post.
Proof.
  revert s. induction a as [|c a IH]; intros s.
  - destruct s; simpl; (split; [intros _; by eexists | done]).
  - destruct s as [|c' s]; simpl.
    + split; [done | intros [post H]; discriminate].
    + destruct (Ascii.ascii_dec c c') as [->|Hne].
      * rewrite IH. split; intros [post H]; exists post; [by rewrite H | by injection H].
      * split; [done | intros [post H]; injection H; congruence].
Qed.

(** [includes] finds exactly the occurrences. *)
Lemma includes_contains (s sub : string) :
  includes s sub = true ↔ contains s sub.
Proof.
  unfold contains. induction s as [|c s IH]; cbn [includes].
  - rewrite orb_false_r, prefix_app. split.
    + intros [post H]. by exists "", post.
    + intros (pre & post & H). destruct pre; simpl in H; [by exists post | discriminate].
  - rewrite orb_true_iff, prefix_app, IH. split.
    + intros [[post H] | (pre & post & H)].
      * by exists "", post.
      * exists (String c pre), post. simpl. by rewrite H.
    + intros (pre & post & H). destruct pre as [|c' pre]; simpl in H.
      * left. by exists post.
      * right. injection H as -> H. by exists pre, post.
Qed.

Lemma includes_not_contains (s sub : string) :
  includes s sub = false ↔ ¬ contains s sub.
Proof. rewrite <- includes_contains. by destruct (includes s sub). Qed.

Context {T : Type}.
Implicit Types (d : Deferred T) (e : unknown).

Lemma finished_reject e d : finished (reject e d) = true.
Proof. by destruct d. Qed.

Lemma finished_resolve v d : finished (resolve v d) = true.
Proof. by destruct d. Qed.

Lemma reject_finished e d : finished d = true → reject e d = d.
Proof. by destruct d. Qed.

Lemma resolve_finished v d : finished d = true → resolve v d = d.
Proof. by destruct d. Qed.

Lemma reject_reject e e' d : reject e (reject e' d) = reject e' d.
Proof. by destruct d. Qed.

Lemma finished_pending d : finished d = false ↔ d = Pending.
Proof. by destruct d. Qed.

(** How numbers print: whole numbers in full below [10^21] and with an
    exponent from there on, with no more digits than tell the double from
    its neighbours; fractions with a point. *)
Example toString_examples :
  Number.toString 100%Z = "100"
  ∧ Number.toString (-30000)%Z = "-30000"
  ∧ Number.toString (10 ^ 20)%Z = "100000000000000000000"
  ∧ Number.toString (10 ^ 21)%Z = "1e+21"
  ∧ Number.toString (2 ^ 60)%Z = "1152921504606847000"
  ∧ Number.toString (Number.div 1%Z 2%Z) = "0.5"
  ∧ Number.toString (Number.div 1%Z 10%Z) = "0.1"
  ∧ Number.toString (Number.div 1%Z (10 ^ 7)%Z) = "1e-7"
  ∧ Number.toString 0%Z = "0"
  ∧ Number.toString Number.NaN = "NaN"
  ∧ Number.toString Number.Infinity = "Infinity".
Proof. vm_compute. repeat split. Qed.

(** [if (x)] on a number fails for zero and for NaN only. *)
Lemma truthy_number (x : Number.t) :
  Number.truthy x = negb (Number.is_zero x) && negb (Number.is_nan x).
Proof. by destruct x. Qed.

End Basics.

(** ** The pollers *)
Section Pollers.

Implicit Types (p : poller) (g : Page) (o : outcome value) (v : value).

Ltac unfold_poller :=
  unfold start, stop, result, lift,
    MutationPoller.start, MutationPoller.start_call, MutationPoller.start_resume,
    MutationPoller.stop, MutationPoller.result,
    RAFPoller.start, RAFPoller.start_call, RAFPoller.start_resume,
    RAFPoller.stop, RAFPoller.result,
    IntervalPoller.start, IntervalPoller.start_call, IntervalPoller.start_resume,
    IntervalPoller.stop, IntervalPoller.result, begin_start in *;
  simpl in *.

(** The guard of [stop()] changes nothing: it rejects exactly the pending
    promise. *)
Lemma guarded_reject r g :
  promises (if negb (finished_at r g) then reject_at r polling_stopped g else g)
  = alter (reject polling_stopped) r (promises g).
Proof.
  unfold finished_at. destruct (promises g !! r) as [d|] eqn:Hr; simpl.
  - destruct (finished d) eqn:Hd; simpl; [|done].
    symmetry. erewrite list_alter_ext; [by apply list_alter_id | | done].
    intros d' Hd'. simpl. rewrite Hr in Hd'. injection Hd' as <-. by apply reject_finished.
  - done.
Qed.

Lemma guarded_reject_rest r g :
  let g' := if negb (finished_at r g) then reject_at r polling_stopped g else g in
  observers g' = observers g ∧ frames g' = frames g ∧ intervals g' = intervals g
  ∧ calls g' = calls g.
Proof. simpl. by destruct (negb (finished_at r g)). Qed.

Lemma finished_at_alter_reject r e g :
  r < length (promises g) → finished_at r (set_promises (alter (reject e) r) g) = true.
Proof.
  intros Hr. unfold finished_at. simpl. rewrite list_lookup_alter_eq.
  destruct (lookup_lt_is_Some_2 _ _ Hr) as [d ->]. simpl. apply finished_reject.
Qed.

(** C10.  Before [start()] was ever called, for each of the three pollers,
    [stop()] and [result()] fail on the assertion with the message
    'Polling never started.'; they neither return nor change the poller or
    the page. *)
Theorem stop_and_result_before_start (vr : variant) g :
  stop (new_poller vr, g)
    = (Abrupt (UError (mkError ClsError "Polling never started.")), (new_poller vr, g))
  ∧ result (new_poller vr, g)
    = Throws (UError (mkError ClsError "Polling never started.")).
Proof. by destruct vr. Qed.

(** What [start()] does to the page, whatever the predicate answers: the
    deferred promise is made, then the predicate is called, and whatever
    comes after is one registration at most. *)
Lemma start_calls p g o :
  ∃ rest, calls (start o (p, g)).2.2 = calls g ++ CallFn :: rest
          ∧ Forall (λ c, arms c = true) rest ∧ length rest ≤ 1.
Proof.
  assert (∀ l : list host_call, ∃ rest, l ++ [CallFn] = l ++ CallFn :: rest
            ∧ Forall (λ c, arms c = true) rest ∧ length rest ≤ 1) as Hnone.
  { intros l. exists []. split; [done | split; [constructor | simpl; lia]]. }
  assert (∀ (l : list host_call) c, arms c = true →
            ∃ rest, (l ++ [CallFn]) ++ [c] = l ++ CallFn :: rest
            ∧ Forall (λ c, arms c = true) rest ∧ length rest ≤ 1) as Hone.
  { intros l c Hc. exists [c]. rewrite <- app_assoc.
    split; [done | split; [by repeat constructor | simpl; lia]]. }
  destruct p as [p|p|p], o as [v|e]; unfold_poller; try apply Hnone;
    destruct (truthy v); simpl; try apply Hnone; by apply Hone.
Qed.

Lemma alter_resolve_created (ps : list (Deferred value)) v :
  alter (resolve v) (length ps) (ps ++ [createDeferredPromise]) = ps ++ [Fulfilled v].
Proof.
  replace (length ps) with (length ps + 0) by lia. by rewrite alter_app_r.
Qed.

(** The same when another method ran while the predicate was evaluated:
    with a truthy value [start()] registers nothing, and fulfils the
    promise unless a [stop()] settled it in between. *)
Lemma start_resume_truthy r v g :
  truthy v = true →
  (∀ q, MutationPoller.start_resume r (Returns v) (q, g) = (Normal, (q, resolve_at r v g)))
  ∧ (∀ q, RAFPoller.start_resume r (Returns v) (q, g) = (Normal, (q, resolve_at r v g)))
  ∧ (∀ q, IntervalPoller.start_resume r (Returns v) (q, g) = (Normal, (q, resolve_at r v g)))
  ∧ armed (resolve_at r v g) = armed g
  ∧ calls (resolve_at r v g) = calls g.
Proof.
  intros Hv. unfold MutationPoller.start_resume, RAFPoller.start_resume,
    IntervalPoller.start_resume. rewrite Hv. done.
Qed.

(** When the first evaluation is falsy, the watch of the variant is armed
    after the predicate was called. *)
Lemma start_falsy_arms (vr : variant) g v :
  truthy v = false →
  let r := start (Returns v) (new_poller vr, g) in
  r.1 = Normal ∧ armed r.2.2 = true
  ∧ calls r.2.2 = calls g ++ [CallFn;
      match vr with
      | MutationWatch root => Observe root true true true
      | AnimationFrame => RequestAnimationFrame
      | FixedInterval ms => SetInterval ms
      end].
Proof.
  intros Hv. destruct vr; unfold armed; unfold_poller; rewrite Hv; simpl;
    rewrite <- ?app_assoc; repeat split.
  - rewrite existsb_app. simpl. by rewrite orb_true_r.
  - destruct (frames g); simpl; by rewrite orb_true_r.
  - rewrite (existsb_app _ (intervals g)). simpl. by rewrite !orb_true_r.
Qed.

(** C3, as amended.  For each of the three pollers, [start()] makes the
    promise and calls the predicate once, and until the predicate has
    answered it registers nothing with the page.  When the answer is
    truthy, [start()] resolves the promise and registers neither an
    observer, nor an animation-frame callback, nor an interval: the promise
    is fulfilled with the value at once, unless it was settled while the
    predicate was evaluated, and then it stays as it is.  When the answer
    is falsy, [start()] registers exactly one watch, that of its variant,
    and leaves the promise alone; when the predicate throws, it does
    nothing more.  The predicate is called once in each case. *)
Theorem start_evaluates_once_before_arming p g :
  let s0 := start_call (p, g) in
  let r := s0.1 in
  (r = length (promises g)
   ∧ promise_of s0.2.1 = Some r ∧ watch_of s0.2.1 = watch_of p
   ∧ promises s0.2.2 = promises g ++ [Pending]
   ∧ calls s0.2.2 = calls g ++ [CallFn]
   ∧ observers s0.2.2 = observers g ∧ frames s0.2.2 = frames g
   ∧ intervals s0.2.2 = intervals g)
  ∧ (∀ o, start o (p, g) = start_resume r o s0.2)
  ∧ (∀ q g' e, start_resume r (Throws e) (q, g') = (Abrupt e, (q, g')))
  ∧ (∀ q g' v, truthy v = true →
       start_resume r (Returns v) (q, g') = (Normal, (q, resolve_at r v g'))
       ∧ (∀ d, promises g' !! r = Some d →
            promises (resolve_at r v g') !! r = Some (if finished d then d else Fulfilled v))
       ∧ (∀ r', r' ≠ r → promises (resolve_at r v g') !! r' = promises g' !! r')
       ∧ calls (resolve_at r v g') = calls g'
       ∧ observers (resolve_at r v g') = observers g'
       ∧ frames (resolve_at r v g') = frames g'
       ∧ intervals (resolve_at r v g') = intervals g')
  ∧ (∀ q g' v, truthy v = false →
       let s1 := start_resume r (Returns v) (q, g') in
       s1.1 = Normal ∧ promises s1.2.2 = promises g'
       ∧ promise_of s1.2.1 = promise_of q
       ∧ armed s1.2.2 = true
       ∧ match q with
         | OfMutation m =>
           calls s1.2.2 = calls g' ++ [Observe (MutationPoller.root m) true true true]
           ∧ observers s1.2.2 = observers g' ++ [(r, Some (MutationPoller.root m))]
           ∧ frames s1.2.2 = frames g' ∧ intervals s1.2.2 = intervals g'
           ∧ watch_of s1.2.1 = Some (length (observers g'))
         | OfRAF _ =>
           calls s1.2.2 = calls g' ++ [RequestAnimationFrame]
           ∧ frames s1.2.2 = frames g' ++ [r]
           ∧ observers s1.2.2 = observers g' ∧ intervals s1.2.2 = intervals g'
         | OfInterval i =>
           calls s1.2.2 = calls g' ++ [SetInterval (IntervalPoller.ms i)]
           ∧ intervals s1.2.2 = intervals g' ++ [(r, IntervalPoller.ms i, true)]
           ∧ observers s1.2.2 = observers g' ∧ frames s1.2.2 = frames g'
           ∧ watch_of s1.2.1 = Some (length (intervals g'))
         end)
  ∧ (∀ v, truthy v = true →
       let s1 := start (Returns v) (p, g) in
       s1.1 = Normal
       ∧ promises s1.2.2 = promises g ++ [Fulfilled v]
       ∧ calls s1.2.2 = calls g ++ [CallFn]
       ∧ observers s1.2.2 = observers g ∧ frames s1.2.2 = frames g
       ∧ intervals s1.2.2 = intervals g
       ∧ watch_of s1.2.1 = watch_of p
       ∧ armed s1.2.2 = armed g)
  ∧ (∀ v, truthy v = false →
       let s1 := start (Returns v) (p, g) in
       promises s1.2.2 = promises g ++ [Pending]
       ∧ ∃ c, arms c = true ∧ calls s1.2.2 = calls g ++ [CallFn; c])
  ∧ (∀ o, evaluations (start o (p, g)).2.2 = S (evaluations g)).
Proof.
  cbv zeta.
  split. { by destruct p. }
  split. { intros o. by destruct p. }
  split. { intros q g' e. by destruct q. }
  split.
  { intros q g' v Hv. split.
    { destruct q; unfold start_resume, lift, MutationPoller.start_resume,
        RAFPoller.start_resume, IntervalPoller.start_resume; simpl; by rewrite Hv. }
    split.
    { intros d Hd. unfold resolve_at. simpl. rewrite list_lookup_alter_eq, Hd. by destruct d. }
    split; [|done].
    intros r' Hr'. unfold resolve_at. simpl. by apply list_lookup_alter_ne. }
  split.
  { intros q g' v Hv.
    destruct q as [m|m|m]; unfold armed, start_resume, lift, MutationPoller.start_resume,
      RAFPoller.start_resume, IntervalPoller.start_resume; simpl; rewrite Hv; simpl;
      repeat split.
    - rewrite existsb_app. simpl. by rewrite orb_true_r.
    - destruct (frames g'); simpl; by rewrite orb_true_r.
    - rewrite (existsb_app _ (intervals g')). simpl. by rewrite !orb_true_r. }
  split.
  { intros v Hv.
    destruct p as [m|m|m]; unfold armed; unfold_poller; rewrite Hv; simpl;
      by rewrite alter_resolve_created. }
  split.
  { intros v Hv.
    destruct p as [m|m|m]; unfold_poller; rewrite Hv; simpl;
      (split; [done|]); eexists; rewrite <- app_assoc; (split; [|reflexivity]); done. }
  intros o.
  destruct p as [m|m|m], o as [v|e]; unfold_poller; try destruct (truthy v); simpl;
    unfold evaluations; simpl; rewrite ?List.filter_app, ?length_app; simpl; lia.
Qed.

Lemma start_evaluates_once_before_arming_witness :
  let s := start (Returns VNull) (new_poller (FixedInterval 20), empty_page) in
  let s' := start (Returns (VStr "ok")) (new_poller (FixedInterval 20), empty_page) in
  calls s.2.2 = [CallFn; SetInterval 20] ∧ intervals s.2.2 = [(0, 20%Z, true)]
  ∧ promises s.2.2 = [Pending]
  ∧ calls s'.2.2 = [CallFn] ∧ intervals s'.2.2 = [] ∧ promises s'.2.2 = [Fulfilled (VStr "ok")].
Proof.
  destruct (start_evaluates_once_before_arming (new_poller (FixedInterval 20)) empty_page)
    as (_ & Hcut & _ & _ & Hf & Ht & _).
  destruct (Hf (OfInterval (IntervalPoller.mk 20 None (Some 0)))
              (mkPage [Pending] [] [] [] [CallFn]) VNull eq_refl)
    as (_ & F1 & _ & _ & F2 & F3 & _).
  destruct (Ht (VStr "ok") eq_refl) as (_ & T1 & T2 & _ & _ & T3 & _).
  rewrite (Hcut (Returns VNull)).
  split; [exact F2 | split; [exact F3 | split; [exact F1 |]]].
  split; [exact T2 | split; [exact T3 | exact T1]].
Defined.

(** C3, as it was stated, fails when [stop()] runs while [start()] waits
    for the first evaluation: the value is truthy, but the promise is not
    resolved with it, since [stop()] has rejected it before. *)
Lemma start_truthy_after_stop_unresolved :
  let s := start_call (new_poller (MutationWatch 0), empty_page) in
  let r := start_resume s.1 (Returns (VBool true)) (stop s.2).2 in
  truthy (VBool true) = true
  ∧ promises r.2.2 !! s.1 = Some (Rejected polling_stopped)
  ∧ ¬ resolved_with (VBool true) s.1 r.2.2.
Proof. split; [done|]. split; [done|]. unfold resolved_with. vm_compute. discriminate. Qed.

(** [stop()] on a poller that was started: it returns, and the promise is
    rejected exactly when it was pending. *)
Lemma stop_rejects_pending p g r :
  promise_of p = Some r →
  (stop (p, g)).1 = Normal
  ∧ promise_of (stop (p, g)).2.1 = Some r
  ∧ watch_of (stop (p, g)).2.1 = None
  ∧ promises (stop (p, g)).2.2 = alter (reject polling_stopped) r (promises g).
Proof.
  intros Hr. destruct p as [p|p|p]; unfold_poller; rewrite Hr; simpl.
  - destruct (MutationPoller.observer p) eqn:Hw; simpl; by rewrite guarded_reject.
  - by rewrite guarded_reject.
  - destruct (IntervalPoller.interval p) eqn:Hw; simpl; by rewrite guarded_reject.
Qed.

(** What [stop()] does to the watch: the observer is disconnected, the
    interval is cleared; an animation-frame callback stays queued. *)
Lemma stop_watch p g r :
  promise_of p = Some r →
  let g' := (stop (p, g)).2.2 in
  match p, watch_of p with
  | OfMutation _, Some ob =>
    observers g' = alter (λ x, (x.1, None)) ob (observers g)
    ∧ calls g' = calls g ++ [Disconnect ob]
    ∧ frames g' = frames g ∧ intervals g' = intervals g
  | OfInterval _, Some i =>
    intervals g' = alter (λ x, (x.1, false)) i (intervals g)
    ∧ calls g' = calls g ++ [ClearInterval i]
    ∧ observers g' = observers g ∧ frames g' = frames g
  | _, _ =>
    observers g' = observers g ∧ frames g' = frames g
    ∧ intervals g' = intervals g ∧ calls g' = calls g
  end.
Proof.
  intros Hr. pose proof (guarded_reject_rest r g) as (Ho & Hf & Hi & Hc).
  destruct p as [p|p|p]; unfold_poller; rewrite Hr; simpl.
  - destruct (MutationPoller.observer p); simpl; by rewrite ?Ho, ?Hf, ?Hi, ?Hc.
  - done.
  - destruct (IntervalPoller.interval p); simpl; by rewrite ?Ho, ?Hf, ?Hi, ?Hc.
Qed.

Lemma stop_finishes p g r :
  promise_of p = Some r → r < length (promises g) →
  finished_at r (stop (p, g)).2.2 = true.
Proof.
  intros Hr Hlt. unfold finished_at.
  destruct (stop_rejects_pending p g r Hr) as (_ & _ & _ & ->).
  rewrite list_lookup_alter_eq.
  destruct (lookup_lt_is_Some_2 _ _ Hlt) as [d ->]. simpl. apply finished_reject.
Qed.

(** A [stop()] on a poller whose promise is settled and that holds no watch
    does nothing at all. *)
Lemma stop_settled_unarmed p g r :
  promise_of p = Some r → watch_of p = None → finished_at r g = true →
  stop (p, g) = (Normal, (p, g)).
Proof.
  intros Hr Hw Hfin.
  destruct p as [p|p|p]; unfold_poller; rewrite Hr; simpl; rewrite ?Hw, Hfin; simpl;
    by destruct p.
Qed.

(** C5, as amended.  For a poller of any variant that was started, [stop()]
    returns without an exception and rejects the deferred promise with the
    error 'Polling stopped' if and only if the promise is not settled yet;
    then the mutation poller disconnects its observer and the interval
    poller clears its interval, if they hold one, and both forget it.  The
    animation-frame poller cancels nothing: a queued frame callback stays
    queued, and when it runs it finds the promise settled and returns
    without calling the predicate or asking for another frame.  A [stop()]
    after the promise settled leaves the promise as it is, and a second
    [stop()] changes nothing and does not throw. *)
Theorem stop_started p g r :
  promise_of p = Some r → r < length (promises g) →
  let s' := (stop (p, g)).2 in
  (stop (p, g)).1 = Normal
  ∧ (∀ d, promises g !! r = Some d →
       promises s'.2 !! r = Some (if finished d then d else Rejected polling_stopped))
  ∧ (∀ r', r' ≠ r → promises s'.2 !! r' = promises g !! r')
  ∧ watch_of s'.1 = None
  ∧ match p, watch_of p with
    | OfMutation _, Some ob =>
      observers s'.2 = alter (λ x, (x.1, None)) ob (observers g)
      ∧ calls s'.2 = calls g ++ [Disconnect ob]
    | OfInterval _, Some i =>
      intervals s'.2 = alter (λ x, (x.1, false)) i (intervals g)
      ∧ calls s'.2 = calls g ++ [ClearInterval i]
    | OfRAF q, _ =>
      frames s'.2 = frames g ∧ calls s'.2 = calls g
      ∧ RAFPoller.poll_call r (q, s'.2) = None
    | _, None => calls s'.2 = calls g
    end
  ∧ (finished_at r g = true → promises s'.2 = promises g)
  ∧ stop s' = (Normal, s').
Proof.
  intros Hr Hlt s'.
  destruct (stop_rejects_pending p g r Hr) as (Hn & Hp & Hw & Hps).
  pose proof (stop_watch p g r Hr) as Hwatch. simpl in Hwatch.
  pose proof (stop_finishes p g r Hr Hlt) as Hfin.
  subst s'. repeat split.
  - done.
  - intros d Hd. rewrite Hps, list_lookup_alter_eq, Hd. simpl. by destruct d.
  - intros r' Hne. rewrite Hps. by apply list_lookup_alter_ne.
  - done.
  - destruct p as [q|q|q]; simpl in *.
    + destruct (MutationPoller.observer q); tauto.
    + unfold RAFPoller.poll_call. simpl.
      change (RAFPoller.stop (q, g)).2 with (stop (OfRAF q, g)).2.2.
      rewrite Hfin. tauto.
    + destruct (IntervalPoller.interval q); tauto.
  - intros Hf. rewrite Hps. unfold finished_at in Hf.
    destruct (promises g !! r) as [d|] eqn:Hd; [|done].
    erewrite list_alter_ext; [by apply list_alter_id | | done].
    intros d' Hd'. simpl. rewrite Hd in Hd'. injection Hd' as <-. by apply reject_finished.
  - destruct (stop (p, g)) as [c [p' g']] eqn:Hs. simpl in *.
    by apply (stop_settled_unarmed p' g' r).
Qed.

Lemma stop_started_witness :
  let s := (start (Returns (VBool false)) (new_poller (FixedInterval 50), empty_page)).2 in
  (stop s).1 = Normal
  ∧ promises (stop s).2.2 = [Rejected polling_stopped]
  ∧ intervals (stop s).2.2 = [(0, 50%Z, false)]
  ∧ stop (stop s).2 = (Normal, (stop s).2).
Proof.
  destruct (stop_started (OfInterval (IntervalPoller.mk 50 (Some 0) (Some 0)))
              (mkPage [Pending] [] [] [(0, 50%Z, true)] [CallFn; SetInterval 50]) 0
              eq_refl (le_n 1))
    as (H1 & H2 & _ & _ & H3 & _ & H4).
  split; [exact H1 |].
  split; [reflexivity |].
  split; [exact (proj1 H3) | exact H4].
Defined.

(** C5, as it was stated, fails for the animation-frame poller: started
    with a predicate that is not yet truthy and then stopped, it leaves its
    frame callback registered with the page. *)
Lemma stop_leaves_frame_callback :
  ¬ stop_disarms (start (Returns (VBool false)) (new_poller AnimationFrame, empty_page)).2.
Proof. unfold stop_disarms. vm_compute. discriminate. Qed.

(** For the other two variants a poller started in a page of its own is
    not armed after [stop()], whatever the predicate answered. *)
Lemma stop_disarms_observer_and_interval (vr : variant) o :
  vr ≠ AnimationFrame →
  stop_disarms (start o (new_poller vr, empty_page)).2.
Proof.
  intros Hvr. unfold stop_disarms.
  destruct vr as [root| |ms]; [|done|]; destruct o as [v|e]; unfold_poller;
    try done; destruct (truthy v); done.
Qed.

End Pollers.

(** ** Wait tasks and the task manager *)
Section Tasks.

Import WaitTask.

Implicit Types (w : World) (T : WaitTask.t) (e error : unknown) (ev : event)
  (evs : list event) (a : awaited) (o : outcome nat).

(** *** What the methods change *)

Lemma terminate_unknown_task t error w :
  tasks w !! t = None → terminate t error w = w.
Proof. intros H. unfold terminate. by rewrite H. Qed.

Lemma guarded_reject_result r error w :
  results (if is_truthy error && negb (result_finished r w)
           then set_results (alter (reject error) r) w else w)
  = if is_truthy error then alter (reject error) r (results w) else results w.
Proof.
  destruct (is_truthy error); simpl; [|done].
  unfold result_finished. destruct (results w !! r) as [d|] eqn:Hr; simpl; [|done].
  destruct (finished d) eqn:Hd; simpl; [|done].
  symmetry. erewrite list_alter_ext; [by apply list_alter_id | | done].
  intros d' Hd'. simpl. rewrite Hr in Hd'. injection Hd' as <-. by apply reject_finished.
Qed.

(** [terminate(error)] field by field. *)
Lemma terminate_fields t T error w :
  tasks w !! t = Some T →
  let w' := terminate t error w in
  tasks w' = tasks w
  ∧ results w' = (if is_truthy error
                  then alter (reject error) (result T) (results w) else results w)
  ∧ taskManager w' = filter (λ x, x ≠ t) (taskManager w)
  ∧ timers w' = match timeout T with
                | Some k => alter (λ tm, mkTimer (owner tm) (delay tm) false) k (timers w)
                | None => timers w
                end
  ∧ boundFunctions w' = boundFunctions w
  ∧ awaiting w' = match poller T with
                  | Some h => awaiting w ++ [Some (t, PollerStop h)]
                  | None => awaiting w
                  end.
Proof.
  intros Ht. unfold terminate. rewrite Ht.
  set (w1 := match timeout T with Some k => clearTimeout k (delete t w) | None => delete t w end).
  pose proof (guarded_reject_result (result T) error w1) as Hres.
  assert (tasks w1 = tasks w ∧ results w1 = results w
          ∧ taskManager w1 = filter (λ x, x ≠ t) (taskManager w)
          ∧ boundFunctions w1 = boundFunctions w ∧ awaiting w1 = awaiting w
          ∧ timers w1 = match timeout T with
                | Some k => alter (λ tm, mkTimer (owner tm) (delay tm) false) k (timers w)
                | None => timers w
                end) as (H1 & H2 & H3 & H4 & H5 & H6).
  { subst w1. by destruct (timeout T). }
  rewrite H2 in Hres. clearbody w1.
  destruct (poller T); simpl; rewrite Hres;
    destruct (is_truthy error && negb (result_finished (result T) w1)); simpl;
    by rewrite ?H1, ?H3, ?H4, ?H5, ?H6.
Qed.

Lemma catch_cases t error w :
  catch t error w = w
  ∨ (is_truthy (getBadError error) = true ∧ catch t error w = terminate t (getBadError error) w).
Proof. unfold catch. destruct (is_truthy (getBadError error)); auto. Qed.

Lemma rerun_fields t w :
  let w' := rerun t w in
  tasks w' = tasks w ∧ results w' = results w ∧ taskManager w' = taskManager w
  ∧ timers w' = timers w ∧ boundFunctions w' = boundFunctions w
  ∧ ∃ l, awaiting w' = awaiting w ++ l.
Proof.
  unfold rerun. destruct (tasks w !! t) as [T|]; simpl.
  - destruct (bindings T); simpl; repeat split; by eexists [_].
  - repeat split. exists []. by rewrite app_nil_r.
Qed.

(** *** Classification of failures *)

Lemma getBadError_recoverable (x : Error) :
  recoverable x → getBadError (UError x) = undefined.
Proof.
  intros [Hd Hr]. apply includes_not_contains in Hd.
  rewrite <- !includes_contains in Hr. simpl. rewrite Hd.
  destruct (includes (message x) context_destroyed); [done|].
  destruct Hr as [Hr|Hr]; [done | by rewrite Hr].
Qed.

(** C2.  [getBadError] on an [Error] [x] that a run of a task surfaced:
    when the message of [x] contains the detached-frame text the result is a
    new error with the message 'Waiting failed: Frame detached', and the
    task is terminated with it; otherwise, when the message says that the
    execution context was destroyed or that the context cannot be found,
    nothing is returned and the [catch] clause does nothing; any other [x]
    is returned as it is, and the task is terminated with [x]. *)
Theorem getBadError_classification (x : Error) :
  (contains (message x) "Execution context is not available in detached frame" →
     getBadError (UError x) = UError (mkError ClsError "Waiting failed: Frame detached")
     ∧ ∀ t w, catch t (UError x) w
              = terminate t (UError (mkError ClsError "Waiting failed: Frame detached")) w)
  ∧ (¬ contains (message x) "Execution context is not available in detached frame" →
     contains (message x) "Execution context was destroyed"
     ∨ contains (message x) "Cannot find context with specified id" →
     getBadError (UError x) = undefined ∧ ∀ t w, catch t (UError x) w = w)
  ∧ (¬ contains (message x) "Execution context is not available in detached frame" →
     ¬ contains (message x) "Execution context was destroyed" →
     ¬ contains (message x) "Cannot find context with specified id" →
     getBadError (UError x) = UError x
     ∧ ∀ t w, catch t (UError x) w = terminate t (UError x) w).
Proof.
  split; [|split].
  - intros Hd%includes_contains.
    assert (getBadError (UError x) = UError frame_detached) as Hbad.
    { simpl. unfold detached_frame. by rewrite Hd. }
    split; [done|]. intros t w. unfold catch. by rewrite Hbad.
  - intros Hd Hr.
    assert (getBadError (UError x) = undefined) as Hbad.
    { by apply getBadError_recoverable. }
    split; [done|]. intros t w. unfold catch. by rewrite Hbad.
  - intros Hd%includes_not_contains H1%includes_not_contains H2%includes_not_contains.
    assert (getBadError (UError x) = UError x) as Hbad.
    { simpl. unfold detached_frame, context_destroyed, context_not_found.
      by rewrite Hd, H1, H2. }
    split; [done|]. intros t w. unfold catch. by rewrite Hbad.
Qed.

Lemma getBadError_classification_witness :
  getBadError (UError (mkError ClsError
      "Protocol error: Execution context is not available in detached frame (page)"))
    = UError (mkError ClsError "Waiting failed: Frame detached")
  ∧ getBadError (UError (mkError ClsError
      "Protocol error (Runtime.callFunctionOn): Execution context was destroyed."))
    = undefined
  ∧ getBadError (UError (mkError ClsError
      "Protocol error (Runtime.callFunctionOn): Cannot find context with specified id"))
    = undefined
  ∧ getBadError (UError (mkError ClsError "Evaluation failed: boom"))
    = UError (mkError ClsError "Evaluation failed: boom").
Proof.
  split; [|split; [|split]].
  - apply (getBadError_classification (mkError ClsError
      "Protocol error: Execution context is not available in detached frame (page)")).
    by exists "Protocol error: ", " (page)".
  - apply (getBadError_classification (mkError ClsError
      "Protocol error (Runtime.callFunctionOn): Execution context was destroyed.")).
    + by apply includes_not_contains.
    + left. by exists "Protocol error (Runtime.callFunctionOn): ", ".".
  - apply (getBadError_classification (mkError ClsError
      "Protocol error (Runtime.callFunctionOn): Cannot find context with specified id")).
    + by apply includes_not_contains.
    + right. by exists "Protocol error (Runtime.callFunctionOn): ", "".
  - apply (getBadError_classification (mkError ClsError "Evaluation failed: boom"));
      by apply includes_not_contains.
Defined.

(** What the [catch] clause does with values that are no [Error]: they are
    returned as they are, and terminate the task when they are truthy. *)
Lemma getBadError_not_an_error (v : value) :
  getBadError (UValue v) = UValue v.
Proof. done. Qed.

(** *** A failure that calls for a re-run *)

(** C6.  When a run of a task fails with a recoverable error, at whichever
    suspension of [rerun], nothing happens beyond the end of that run: the
    task manager, the deferred promises, the timers and the fields of the
    tasks, the poller among them, are as they were, and no call is issued;
    so the task stays registered and its result stays pending. *)
Theorem recoverable_failure_changes_nothing w k t a (x : Error) :
  awaiting w !! k = Some (Some (t, a)) → in_rerun a = true → recoverable x →
  let w' := step w (Settle k (Throws (UError x))) in
  tasks w' = tasks w ∧ results w' = results w ∧ taskManager w' = taskManager w
  ∧ timers w' = timers w ∧ boundFunctions w' = boundFunctions w
  ∧ awaiting w' = <[k := None]> (awaiting w)
  ∧ (t ∈ taskManager w → t ∈ taskManager w')
  ∧ (∀ T, tasks w !! t = Some T → results w !! result T = Some Pending →
       tasks w' !! t = Some T ∧ results w' !! result T = Some Pending).
Proof.
  intros Hk Ha Hx.
  assert (step w (Settle k (Throws (UError x))) = set_awaiting (<[k := None]>) w) as ->.
  { simpl. rewrite Hk. unfold resume. simpl.
    destruct (tasks w !! t) as [T|]; [|done].
    assert (∀ w1, catch t (UError x) w1 = w1) as Hcatch.
    { intros w1. unfold catch. by rewrite (getBadError_recoverable x Hx). }
    destruct a; try discriminate; apply Hcatch. }
  simpl. tauto.
Qed.

Lemma recoverable_failure_changes_nothing_witness :
  let w := (constructor (mkOptions None Mutation None 30000) (FnString "window.ready") []
              empty_world).2 in
  let w' := step w (Settle 0 (Throws (UError (mkError ClsError
              "Protocol error (Runtime.callFunctionOn): Execution context was destroyed.")))) in
  taskManager w' = [0] ∧ results w' = [Pending] ∧ timers w' = timers w
  ∧ tasks w' = tasks w.
Proof.
  destruct (recoverable_failure_changes_nothing
              (constructor (mkOptions None Mutation None 30000) (FnString "window.ready") []
                 empty_world).2
              0 0 PuppeteerUtil
              (mkError ClsError
                 "Protocol error (Runtime.callFunctionOn): Execution context was destroyed."))
    as (H1 & H2 & H3 & H4 & _).
  - reflexivity.
  - reflexivity.
  - split.
    + by apply includes_not_contains.
    + left. by exists "Protocol error (Runtime.callFunctionOn): ", ".".
  - split; [exact H3 | split; [exact H2 | split; [exact H4 | exact H1]]].
Defined.

(** *** Termination *)

Lemma filter_ne_twice (t : nat) (l : list nat) :
  filter (λ x, x ≠ t) (filter (λ x, x ≠ t) l) = filter (λ x, x ≠ t) l.
Proof.
  induction l as [|x l IH]; [done|].
  rewrite filter_cons. destruct (decide (x ≠ t)) as [Hx|Hx]; [|done].
  rewrite filter_cons. destruct (decide (x ≠ t)); [by rewrite IH | done].
Qed.

Lemma alter_twice {A : Type} (f : A → A) (i : nat) (l : list A) :
  (∀ x, f (f x) = f x) → alter f i (alter f i l) = alter f i l.
Proof.
  intros Hf. rewrite list_alter_alter_eq. apply list_alter_ext; [|done].
  intros x _. simpl. apply Hf.
Qed.

(** A second [terminate(error)] finds everything done; only the remote
    [stop()] is asked for again while the poller is still held. *)
Lemma terminate_twice t T error w :
  tasks w !! t = Some T →
  let w' := terminate t error w in
  let w'' := terminate t error w' in
  tasks w'' = tasks w' ∧ results w'' = results w' ∧ taskManager w'' = taskManager w'
  ∧ timers w'' = timers w' ∧ boundFunctions w'' = boundFunctions w'
  ∧ awaiting w'' = match poller T with
                   | Some h => awaiting w' ++ [Some (t, PollerStop h)]
                   | None => awaiting w'
                   end.
Proof.
  intros Ht.
  destruct (terminate_fields t T error w Ht) as (H1 & H2 & H3 & H4 & H5 & H6).
  assert (tasks (terminate t error w) !! t = Some T) as Ht' by by rewrite H1.
  destruct (terminate_fields t T error _ Ht') as (G1 & G2 & G3 & G4 & G5 & G6).
  simpl. repeat split; try done.
  - rewrite G2, H2. destruct (is_truthy error); [|done].
    apply alter_twice. intros d. apply reject_reject.
  - rewrite G3, H3. apply filter_ne_twice.
  - rewrite G4, H4. destruct (timeout T); [|done]. by apply alter_twice.
Qed.

(** The end of [terminate]: a failure of the remote [stop()] or of
    [dispose()] ends the method and changes nothing else. *)
Lemma cleanup_failure_swallowed w k t a e :
  awaiting w !! k = Some (Some (t, a)) → in_rerun a = false →
  step w (Settle k (Throws e)) = set_awaiting (<[k := None]>) w.
Proof.
  intros Hk Ha. simpl. rewrite Hk. unfold resume. simpl.
  destruct (tasks w !! t); [|done]. by destruct a.
Qed.

(** When the remote [stop()] succeeded, the poller that the task holds then
    is disposed, and when that succeeded, the task forgets its poller. *)
Lemma cleanup_success w k t T h x :
  awaiting w !! k = Some (Some (t, PollerStop h)) ∨ awaiting w !! k = Some (Some (t, Dispose h)) →
  tasks w !! t = Some T →
  step w (Settle k (Returns x))
  = match awaiting w !! k, poller T with
    | Some (Some (_, PollerStop _)), Some h' =>
      suspend t (Dispose h') (set_awaiting (<[k := None]>) w)
    | Some (Some (_, PollerStop _)), None => set_awaiting (<[k := None]>) w
    | _, _ => set_tasks (alter (set_poller None) t) (set_awaiting (<[k := None]>) w)
    end.
Proof.
  intros [Hk|Hk] Ht; simpl; rewrite Hk; unfold resume; simpl; by rewrite Ht.
Qed.

(** C7, as amended.  [terminate(error)] removes the task from the task manager and
    nothing else from it, cancels the timer of the task and no other,
    rejects the result of the task with [error] exactly when [error] is
    given (truthy) and the result is still pending, touches no other
    deferred promise, and when the task holds a poller asks the page to
    [stop()] it; when that succeeded the poller is disposed, and then
    forgotten.  A failure of that [stop()], or of the [dispose()], ends the
    cleanup without any other effect, so it never reaches the result.
    Calling [terminate(error)] again
    changes nothing but to ask for [stop()] once more while the poller is
    still held. *)
Theorem terminate_idempotent_cleanup t T error w :
  tasks w !! t = Some T →
  let w' := terminate t error w in
  (t ∉ taskManager w')
  ∧ (∀ x, x ≠ t → (x ∈ taskManager w' ↔ x ∈ taskManager w))
  ∧ (∀ k tm, timeout T = Some k → timers w !! k = Some tm →
       timers w' !! k = Some (mkTimer (owner tm) (delay tm) false))
  ∧ (∀ k, timeout T ≠ Some k → timers w' !! k = timers w !! k)
  ∧ (∀ d, results w !! result T = Some d →
       results w' !! result T
       = Some (if is_truthy error && negb (finished d) then Rejected error else d))
  ∧ (∀ r, r ≠ result T → results w' !! r = results w !! r)
  ∧ tasks w' = tasks w
  ∧ awaiting w' = match poller T with
                  | Some h => awaiting w ++ [Some (t, PollerStop h)]
                  | None => awaiting w
                  end
  ∧ (∀ w1 k a e, awaiting w1 !! k = Some (Some (t, a)) → in_rerun a = false →
       step w1 (Settle k (Throws e)) = set_awaiting (<[k := None]>) w1)
  ∧ (∀ w1 k h x T1 h', awaiting w1 !! k = Some (Some (t, PollerStop h)) →
       tasks w1 !! t = Some T1 → poller T1 = Some h' →
       step w1 (Settle k (Returns x))
       = suspend t (Dispose h') (set_awaiting (<[k := None]>) w1))
  ∧ (∀ w1 k h x T1, awaiting w1 !! k = Some (Some (t, Dispose h)) →
       tasks w1 !! t = Some T1 →
       step w1 (Settle k (Returns x))
       = set_tasks (alter (set_poller None) t) (set_awaiting (<[k := None]>) w1))
  ∧ (let w'' := terminate t error w' in
     tasks w'' = tasks w' ∧ results w'' = results w' ∧ taskManager w'' = taskManager w'
     ∧ timers w'' = timers w' ∧ boundFunctions w'' = boundFunctions w'
     ∧ awaiting w'' = match poller T with
                      | Some h => awaiting w' ++ [Some (t, PollerStop h)]
                      | None => awaiting w'
                      end).
Proof.
  intros Ht.
  destruct (terminate_fields t T error w Ht) as (H1 & H2 & H3 & H4 & H5 & H6).
  cbv zeta.
  split. { rewrite H3, list_elem_of_filter. tauto. }
  split. { intros x Hx. rewrite H3, list_elem_of_filter. tauto. }
  split. { intros k tm Hk Htm. by rewrite H4, Hk, list_lookup_alter_eq, Htm. }
  split.
  { intros k Hk. rewrite H4. destruct (timeout T) as [k'|]; [|done].
    apply list_lookup_alter_ne. congruence. }
  split.
  { intros d Hd. rewrite H2. destruct (is_truthy error); simpl; [|done].
    rewrite list_lookup_alter_eq, Hd. by destruct d. }
  split.
  { intros r Hr. rewrite H2. destruct (is_truthy error); [|done].
    by apply list_lookup_alter_ne. }
  split; [done|]. split; [done|].
  split. { intros w1 k a e. apply cleanup_failure_swallowed. }
  split.
  { intros w1 k h x T1 h' Hk HT1 Hp.
    rewrite (cleanup_success w1 k t T1 h x) by auto. by rewrite Hk, Hp. }
  split.
  { intros w1 k h x T1 Hk HT1.
    rewrite (cleanup_success w1 k t T1 h x) by auto. by rewrite Hk. }
  apply (terminate_twice t T error w Ht).
Qed.

Lemma terminate_idempotent_cleanup_witness :
  let w := step (constructor (mkOptions None Raf None 500) (FnString "document.title") []
                   empty_world).2 (Settle 0 (Returns 0)) in
  let w := step w (Settle 1 (Returns 11)) in
  let x := UError (mkError ClsError "waitForFunction failed: frame got detached.") in
  let w' := terminate 0 x w in
  (0 ∉ taskManager w')
  ∧ results w' !! 0 = Some (Rejected x)
  ∧ awaiting w' = awaiting w ++ [Some (0, PollerStop 11)]
  ∧ results (terminate 0 x w') = results w'.
Proof.
  destruct (terminate_idempotent_cleanup 0
              (mk [] Raf None "() => {return (document.title);}" [] (Some 0) 0 (Some 11))
              (UError (mkError ClsError "waitForFunction failed: frame got detached."))
              (step (step (constructor (mkOptions None Raf None 500) (FnString "document.title") []
                   empty_world).2 (Settle 0 (Returns 0))) (Settle 1 (Returns 11)))
              eq_refl)
    as (H1 & _ & _ & _ & H2 & _ & _ & H3 & _ & _ & _ & H4).
  split; [exact H1 |].
  split; [exact (H2 Pending eq_refl) |].
  split; [exact H3 | exact (proj1 (proj2 H4))].
Defined.

(** C7, as it was stated, fails for a task that holds a poller: a second
    [terminate(error)] asks the page once more to [stop()] the poller, so
    it is not without effect. *)
Lemma terminate_twice_stops_twice :
  let w := step (step (constructor (mkOptions None Raf None 500) (FnString "document.title") []
                         empty_world).2 (Settle 0 (Returns 0))) (Settle 1 (Returns 11)) in
  let x := UError (mkError ClsError "waitForFunction failed: frame got detached.") in
  awaiting (terminate 0 x w) = [None; None; Some (0, PollerStart 11); Some (0, PollerStop 11)]
  ∧ awaiting (terminate 0 x (terminate 0 x w))
    = awaiting (terminate 0 x w) ++ [Some (0, PollerStop 11)]
  ∧ ¬ terminate_idempotent 0 x w.
Proof.
  split; [by vm_compute|]. split; [by vm_compute|].
  intros H. apply (f_equal awaiting) in H. vm_compute in H. discriminate.
Qed.

(** *** Construction *)

Lemma alter_last {A : Type} (f : A → A) (l : list A) (x : A) :
  alter f (length l) (l ++ [x]) = l ++ [f x].
Proof. replace (length l) with (length l + 0) by lia. by rewrite alter_app_r. Qed.

Lemma lookup_last {A : Type} (l : list A) (x : A) :
  (l ++ [x]) !! length l = Some x.
Proof. rewrite lookup_app_r by lia. by rewrite Nat.sub_diag. Qed.

(** [new WaitTask(...)] field by field. *)
Lemma constructor_fields options f args w :
  let t := length (tasks w) in
  let w' := (constructor options f args w).2 in
  let T := mk (default [] (opt_bindings options)) (opt_polling options) (opt_root options)
              (match f with
               | FnString s => "() => {return (" +:+ s +:+ ");}"
               | FnFunction source => source
               end)
              args
              (if Number.truthy (opt_timeout options) then Some (length (timers w)) else None)
              (length (results w)) None in
  (constructor options f args w).1 = t
  ∧ tasks w' = tasks w ++ [T]
  ∧ results w' = results w ++ [Pending]
  ∧ taskManager w' = (if bool_decide (t ∈ taskManager w) then taskManager w
                      else taskManager w ++ [t])
  ∧ timers w' = (if Number.truthy (opt_timeout options)
                 then timers w ++ [mkTimer t (opt_timeout options) true]
                 else timers w)
  ∧ awaiting w' = awaiting w ++ [Some (t, match bindings T with
                                          | [] => PuppeteerUtil
                                          | _ :: _ => ExecutionContext
                                          end)].
Proof.
  unfold constructor.
  destruct (Number.truthy (opt_timeout options)); destruct (opt_bindings options) as [[|b bs]|];
    simpl; unfold rerun; simpl; rewrite ?alter_last, lookup_last; simpl;
    rewrite ?alter_last; done.
Qed.

(** *** What no event undoes *)

Lemma same_task_fields T T' :
  same_task T T' →
  result T' = result T ∧ timeout T' = timeout T ∧ bindings T' = bindings T
  ∧ polling T' = polling T ∧ root T' = root T ∧ fn T' = fn T ∧ args T' = args T.
Proof. destruct T, T'. unfold same_task. simpl. intros [= -> -> -> -> -> -> ->]. done. Qed.

Lemma same_task_set_poller h T : same_task T (set_poller h T).
Proof. by destruct T. Qed.

Lemma evolves_refl w : evolves w w.
Proof.
  repeat split.
  - intros t T Ht. by exists T.
  - intros r d Hd. by exists d.
  - auto.
Qed.

Lemma evolves_length w w' : evolves w w' → length (tasks w) ≤ length (tasks w').
Proof.
  intros (Ht & _ & _).
  destruct (decide (length (tasks w) = 0)) as [|Hne]; [lia|].
  destruct (lookup_lt_is_Some_2 (tasks w) (length (tasks w) - 1)) as [T HT]; [lia|].
  destruct (Ht _ _ HT) as (T' & HT' & _). apply lookup_lt_Some in HT'. lia.
Qed.

Lemma evolves_trans w1 w2 w3 : evolves w1 w2 → evolves w2 w3 → evolves w1 w3.
Proof.
  intros H12 H23. pose proof (evolves_length _ _ H12) as Hlen.
  destruct H12 as (Ht & Hr & Hm), H23 as (Ht' & Hr' & Hm'). repeat split.
  - intros t T HT. destruct (Ht _ _ HT) as (T2 & HT2 & Hs).
    destruct (Ht' _ _ HT2) as (T3 & HT3 & Hs'). exists T3. split; [done|].
    unfold same_task in *. congruence.
  - intros r d Hd. destruct (Hr _ _ Hd) as (d2 & Hd2 & Hf).
    destruct (Hr' _ _ Hd2) as (d3 & Hd3 & Hf'). exists d3. split; [done|].
    intros Hfin. specialize (Hf Hfin). subst d2. auto.
  - intros x Hx. destruct (Hm' _ Hx) as [Hx2|Hx2]; [|right; lia].
    destruct (Hm _ Hx2); auto.
Qed.

(** A change of the suspended calls alone. *)
Lemma evolves_fields w w' :
  tasks w' = tasks w → results w' = results w → taskManager w' = taskManager w →
  evolves w w'.
Proof.
  intros H1 H2 H3. unfold evolves. rewrite H1, H2, H3. apply evolves_refl.
Qed.

Lemma evolves_terminate t error w : evolves w (terminate t error w).
Proof.
  destruct (tasks w !! t) as [T|] eqn:Ht.
  - destruct (terminate_fields t T error w Ht) as (H1 & H2 & H3 & _).
    unfold evolves. rewrite H1, H2, H3. repeat split.
    + intros t' T' HT'. by exists T'.
    + intros r d Hd. destruct (is_truthy error); [|by exists d].
      exists (if decide (result T = r) then reject error d else d). split.
      * rewrite list_lookup_alter.
        destruct (decide (result T = r)) as [->|]; by rewrite Hd.
      * intros Hfin. destruct (decide (result T = r)); [by apply reject_finished | done].
    + intros x Hx. apply list_elem_of_filter in Hx. tauto.
  - rewrite terminate_unknown_task by done. apply evolves_refl.
Qed.

Lemma evolves_catch t error w : evolves w (catch t error w).
Proof.
  destruct (catch_cases t error w) as [->|[_ ->]];
    [apply evolves_refl | apply evolves_terminate].
Qed.

Lemma evolves_rerun t w : evolves w (rerun t w).
Proof.
  destruct (rerun_fields t w) as (H1 & H2 & H3 & _). by apply evolves_fields.
Qed.

Lemma evolves_set_poller h t w :
  evolves w (set_tasks (alter (set_poller h) t) w).
Proof.
  repeat split; simpl.
  - intros t' T' HT'. rewrite list_lookup_alter.
    destruct (decide (t = t')) as [->|]; rewrite HT'; simpl; eexists; split;
      done || apply same_task_set_poller.
  - intros r d Hd. by exists d.
  - auto.
Qed.

Lemma evolves_resolve r x w :
  evolves w (set_results (alter (resolve x) r) w).
Proof.
  repeat split; simpl.
  - intros t' T' HT'. by exists T'.
  - intros r' d Hd. rewrite list_lookup_alter.
    destruct (decide (r = r')) as [->|]; rewrite Hd; simpl; eexists; split;
      done || (intros Hfin; by apply resolve_finished).
  - auto.
Qed.

Lemma evolves_suspend t a w : evolves w (suspend t a w).
Proof. by apply evolves_fields. Qed.

Lemma evolves_resume t a o w : evolves w (resume t a o w).
Proof.
  unfold resume. destruct (tasks w !! t) as [T|]; [|apply evolves_refl].
  destruct a, o; try apply evolves_suspend; try apply evolves_catch;
    try apply evolves_refl.
  - eapply evolves_trans; [apply evolves_set_poller | apply evolves_suspend].
  - destruct (poller T); [apply evolves_suspend | apply evolves_catch].
  - eapply evolves_trans; [apply evolves_resolve | apply evolves_terminate].
  - destruct (poller T); [apply evolves_suspend | apply evolves_refl].
  - apply evolves_set_poller.
Qed.

Lemma evolves_constructor options f args w :
  evolves w (constructor options f args w).2.
Proof.
  pose proof (constructor_fields options f args w) as H. cbv zeta in H.
  destruct H as (_ & H1 & H2 & H3 & _).
  unfold evolves. rewrite H1, H2, H3. repeat split.
  - intros t T HT. exists T. split; [by apply lookup_app_l_Some | done].
  - intros r d Hd. exists d. split; [by apply lookup_app_l_Some | done].
  - intros x Hx. case_bool_decide; [auto|].
    apply elem_of_app in Hx as [Hx|Hx]; [auto|].
    apply list_elem_of_singleton in Hx. right. lia.
Qed.

Lemma evolves_foldl (g : World → nat → World) (l : list nat) w :
  (∀ w t, evolves w (g w t)) → evolves w (foldl g w l).
Proof.
  intros Hg. revert w. induction l as [|t l IH]; intros w; simpl.
  - apply evolves_refl.
  - eapply evolves_trans; [apply Hg | apply IH].
Qed.

Lemma evolves_step w ev : evolves w (step w ev).
Proof.
  destruct ev as [options f args|k o|k|t error|t|error|]; simpl.
  - apply evolves_constructor.
  - destruct (awaiting w !! k) as [[[t a]|]|]; try apply evolves_refl.
    eapply evolves_trans; [|apply evolves_resume]. by apply evolves_fields.
  - destruct (timers w !! k) as [tm|]; [|apply evolves_refl].
    destruct (live tm); [|apply evolves_refl].
    eapply evolves_trans; [|apply evolves_terminate]. by apply evolves_fields.
  - apply evolves_terminate.
  - apply evolves_rerun.
  - unfold terminateAll. eapply evolves_trans.
    + apply evolves_foldl. intros w' t. apply evolves_terminate.
    + repeat split; simpl.
      * intros t T HT. by exists T.
      * intros r d Hd. by exists d.
      * intros x Hx. by apply elem_of_nil in Hx.
  - apply evolves_foldl. intros w' t. apply evolves_rerun.
Qed.

Lemma evolves_run w evs : evolves w (run w evs).
Proof.
  revert w. induction evs as [|ev evs IH]; intros w; simpl.
  - apply evolves_refl.
  - eapply evolves_trans; [apply evolves_step | apply IH].
Qed.

(** *** Terminating all tasks *)

Lemma terminate_tasks t error w : tasks (terminate t error w) = tasks w.
Proof.
  destruct (tasks w !! t) as [T|] eqn:Ht.
  - apply (terminate_fields t T error w Ht).
  - by rewrite terminate_unknown_task.
Qed.

Lemma terminate_results_lookup t error w r d :
  results w !! r = Some d →
  results (terminate t error w) !! r = Some d
  ∨ results (terminate t error w) !! r = Some (reject error d).
Proof.
  intros Hd. destruct (tasks w !! t) as [T|] eqn:Ht.
  - destruct (terminate_fields t T error w Ht) as (_ & -> & _).
    destruct (is_truthy error); [|auto].
    rewrite list_lookup_alter.
    destruct (decide (result T = r)) as [->|]; rewrite Hd; auto.
  - rewrite terminate_unknown_task by done. auto.
Qed.

Lemma terminate_timers_lookup t error w k tm :
  timers w !! k = Some tm →
  timers (terminate t error w) !! k = Some tm
  ∨ timers (terminate t error w) !! k = Some (mkTimer (owner tm) (delay tm) false).
Proof.
  intros Hk. destruct (tasks w !! t) as [T|] eqn:Ht.
  - destruct (terminate_fields t T error w Ht) as (_ & _ & _ & -> & _).
    destruct (timeout T) as [k'|]; [|auto].
    rewrite list_lookup_alter.
    destruct (decide (k' = k)) as [->|]; rewrite Hk; auto.
  - rewrite terminate_unknown_task by done. auto.
Qed.

Lemma terminate_awaiting t error w :
  ∃ l, awaiting (terminate t error w) = awaiting w ++ l.
Proof.
  destruct (tasks w !! t) as [T|] eqn:Ht.
  - destruct (terminate_fields t T error w Ht) as (_ & _ & _ & _ & _ & ->).
    destruct (poller T); [by eexists | exists []; by rewrite app_nil_r].
  - rewrite terminate_unknown_task by done. exists []. by rewrite app_nil_r.
Qed.

Lemma foldl_terminate_tasks error (l : list nat) w :
  tasks (foldl (λ w t, terminate t error w) w l) = tasks w.
Proof.
  revert w. induction l as [|t l IH]; intros w; simpl; [done|].
  by rewrite IH, terminate_tasks.
Qed.

(** The loop of [terminateAll] on the results: each is rejected at most,
    and the results of the tasks that are visited are rejected if pending. *)
Lemma foldl_terminate_results (x : Error) (l : list nat) w :
  let w' := foldl (λ w t, terminate t (UError x) w) w l in
  (∀ r d, results w !! r = Some d →
     results w' !! r = Some d ∨ results w' !! r = Some (reject (UError x) d))
  ∧ (∀ t T d, t ∈ l → tasks w !! t = Some T → results w !! result T = Some d →
       results w' !! result T = Some (reject (UError x) d)).
Proof.
  revert w. induction l as [|t0 l IH]; intros w; simpl.
  - split; [auto|]. intros t T d Ht. by apply elem_of_nil in Ht.
  - destruct (IH (terminate t0 (UError x) w)) as [IH1 IH2]. split.
    + intros r d Hd.
      destruct (terminate_results_lookup t0 (UError x) w r d Hd) as [H1|H1];
        destruct (IH1 _ _ H1) as [H2|H2]; rewrite ?reject_reject in H2; auto.
    + intros t T d Ht HT Hd. apply elem_of_cons in Ht as [->|Ht].
      * destruct (terminate_fields t0 T (UError x) w HT) as (_ & H2 & _).
        simpl in H2.
        assert (results (terminate t0 (UError x) w) !! result T
                = Some (reject (UError x) d)) as H1.
        { by rewrite H2, list_lookup_alter_eq, Hd. }
        destruct (IH1 _ _ H1) as [H3|H3]; rewrite ?reject_reject in H3; auto.
      * destruct (terminate_results_lookup t0 (UError x) w _ d Hd) as [H1|H1].
        -- apply (IH2 t T d Ht); [by rewrite terminate_tasks | done].
        -- rewrite <- (reject_reject (UError x) (UError x) d).
           apply (IH2 t T _ Ht); [by rewrite terminate_tasks | done].
Qed.

(** The same loop on the timers and on the calls it issues. *)
Lemma foldl_terminate_timers error (l : list nat) w :
  let w' := foldl (λ w t, terminate t error w) w l in
  (∀ k tm, timers w !! k = Some tm →
     timers w' !! k = Some tm
     ∨ timers w' !! k = Some (mkTimer (owner tm) (delay tm) false))
  ∧ (∀ t T k tm, t ∈ l → tasks w !! t = Some T → timeout T = Some k →
       timers w !! k = Some tm →
       timers w' !! k = Some (mkTimer (owner tm) (delay tm) false)).
Proof.
  revert w. induction l as [|t0 l IH]; intros w; simpl.
  - split; [auto|]. intros t T k tm Ht. by apply elem_of_nil in Ht.
  - destruct (IH (terminate t0 error w)) as [IH1 IH2]. split.
    + intros k tm Hk.
      destruct (terminate_timers_lookup t0 error w k tm Hk) as [H1|H1];
        destruct (IH1 _ _ H1) as [H2|H2]; auto.
    + intros t T k tm Ht HT Hto Hk. apply elem_of_cons in Ht as [->|Ht].
      * destruct (terminate_fields t0 T error w HT) as (_ & _ & _ & H4 & _).
        assert (timers (terminate t0 error w) !! k
                = Some (mkTimer (owner tm) (delay tm) false)) as H1.
        { by rewrite H4, Hto, list_lookup_alter_eq, Hk. }
        destruct (IH1 _ _ H1) as [H3|H3]; auto.
      * destruct (terminate_timers_lookup t0 error w k tm Hk) as [H1|H1].
        -- apply (IH2 t T k tm Ht); [by rewrite terminate_tasks | done | done].
        -- apply (IH2 t T k _ Ht) in H1; [done | by rewrite terminate_tasks | done].
Qed.

Lemma foldl_terminate_awaiting error (l : list nat) w :
  let w' := foldl (λ w t, terminate t error w) w l in
  (∃ l', awaiting w' = awaiting w ++ l')
  ∧ (∀ t T h, t ∈ l → tasks w !! t = Some T → poller T = Some h →
       Some (t, PollerStop h) ∈ awaiting w').
Proof.
  revert w. induction l as [|t0 l IH]; intros w; simpl.
  - split; [exists []; by rewrite app_nil_r|]. intros t T h Ht. by apply elem_of_nil in Ht.
  - destruct (IH (terminate t0 error w)) as [[l2 IH1] IH2].
    destruct (terminate_awaiting t0 error w) as [l1 H1]. split.
    + exists (l1 ++ l2). by rewrite IH1, H1, app_assoc.
    + intros t T h Ht HT Hp. apply elem_of_cons in Ht as [->|Ht].
      * destruct (terminate_fields t0 T error w HT) as (_ & _ & _ & _ & _ & H6).
        rewrite Hp in H6. rewrite IH1, H6.
        apply elem_of_app. left. apply elem_of_app. right. apply list_elem_of_singleton. done.
      * apply (IH2 t T h Ht); [by rewrite terminate_tasks | done].
Qed.

(** C9.  [terminateAll(error)] terminates every task that is registered
    with the error: a result that is still pending is rejected with it (a
    settled one stays), the timer of the task is cancelled and its poller
    is asked to stop; afterwards the task manager holds no task. *)
Theorem terminateAll_rejects_registered (x : Error) w :
  let w' := terminateAll (Some x) w in
  taskManager w' = [] ∧ length (taskManager w') = 0
  ∧ tasks w' = tasks w
  ∧ ∀ t T, t ∈ taskManager w → tasks w !! t = Some T →
      (∀ d, results w !! result T = Some d →
         results w' !! result T = Some (if finished d then d else Rejected (UError x)))
      ∧ (∀ k tm, timeout T = Some k → timers w !! k = Some tm →
           timers w' !! k = Some (mkTimer (owner tm) (delay tm) false))
      ∧ (∀ h, poller T = Some h → Some (t, PollerStop h) ∈ awaiting w').
Proof.
  unfold terminateAll. simpl.
  split; [done | split; [done | split; [apply foldl_terminate_tasks |]]].
  intros t T Hin HT. repeat split.
  - intros d Hd.
    rewrite (proj2 (foldl_terminate_results x (taskManager w) w) t T d) by done.
    by destruct d.
  - intros k tm Hto Hk.
    by apply (proj2 (foldl_terminate_timers (UError x) (taskManager w) w) t T k tm).
  - intros h Hp.
    by apply (proj2 (foldl_terminate_awaiting (UError x) (taskManager w) w) t T h).
Qed.

Lemma terminateAll_rejects_registered_witness :
  let w := (constructor (mkOptions None Raf None 0) (FnString "b") []
             (constructor (mkOptions None Mutation None 1000) (FnString "a") []
                empty_world).2).2 in
  let x := mkError ClsError "waitForFunction failed: frame got detached." in
  taskManager w = [0; 1]
  ∧ taskManager (terminateAll (Some x) w) = []
  ∧ results (terminateAll (Some x) w) !! 0 = Some (Rejected (UError x))
  ∧ results (terminateAll (Some x) w) !! 1 = Some (Rejected (UError x)).
Proof.
  pose proof (terminateAll_rejects_registered
                (mkError ClsError "waitForFunction failed: frame got detached.")
                (constructor (mkOptions None Raf None 0) (FnString "b") []
                   (constructor (mkOptions None Mutation None 1000) (FnString "a") []
                      empty_world).2).2) as (H1 & _ & _ & H2).
  split; [reflexivity |]. split; [exact H1 |]. split.
  - refine (proj1 (H2 0 (mk [] Mutation None "() => {return (a);}" [] (Some 0) 0 None)
                     _ eq_refl) Pending eq_refl).
    apply list_elem_of_here.
  - refine (proj1 (H2 1 (mk [] Raf None "() => {return (b);}" [] None 1 None)
                     _ eq_refl) Pending eq_refl).
    apply list_elem_of_further, list_elem_of_here.
Defined.

(** *** The invariant of the event loop *)

Lemma wf_empty : wf empty_world.
Proof. split; simpl; try done; intros; by apply elem_of_nil in H. Qed.

(** A change of the suspended calls and bound functions alone. *)
Lemma wf_fields w w' :
  wf w → tasks w' = tasks w → results w' = results w →
  taskManager w' = taskManager w → timers w' = timers w → wf w'.
Proof.
  intros [H1 H2 H3 H4 H5] E1 E2 E3 E4.
  split; rewrite ?E1, ?E2, ?E3, ?E4; done.
Qed.

(** [terminate] of task [t] in a world [w0] that differs from a
    well-formed [w] in the result of [t] at most, and in timers that
    expired. *)
Lemma wf_terminate_from w w0 t T error :
  wf w → tasks w !! t = Some T →
  tasks w0 = tasks w → taskManager w0 = taskManager w →
  length (results w0) = length (results w) →
  (∀ r, r ≠ result T → results w0 !! r = results w !! r) →
  (∀ k tm0, timers w0 !! k = Some tm0 →
     ∃ tm, timers w !! k = Some tm ∧ owner tm = owner tm0 ∧ (live tm0 = true → tm0 = tm)) →
  wf (terminate t error w0).
Proof.
  intros [H1 H2 H3 H4 H5] HT E1 E3 E2 Hres Htim.
  assert (tasks w0 !! t = Some T) as HT0 by by rewrite E1.
  destruct (terminate_fields t T error w0 HT0) as (G1 & G2 & G3 & G4 & _).
  assert (∀ k tm', timers (terminate t error w0) !! k = Some tm' →
            ∃ tm0, timers w0 !! k = Some tm0 ∧ owner tm0 = owner tm'
                   ∧ (live tm' = true → tm' = tm0 ∧ timeout T ≠ Some k)) as Htim'.
  { intros k tm'. rewrite G4. destruct (timeout T) as [k0|]; [|by eauto].
    rewrite list_lookup_alter. destruct (decide (k0 = k)) as [->|Hne].
    - destruct (timers w0 !! k) as [tm0|]; simpl; [|done].
      intros [= <-]. exists tm0. by repeat split.
    - intros Hk. exists tm'. repeat split; congruence. }
  split.
  - rewrite G1, G2, E1. destruct (is_truthy error); rewrite ?length_alter; congruence.
  - rewrite G1, E1. apply H2.
  - intros k tm' Hk Hlive.
    destruct (Htim' k tm' Hk) as (tm0 & Hk0 & _ & Hl). destruct (Hl Hlive) as [<- Hto].
    destruct (Htim k tm' Hk0) as (tm & Hkw & _ & Hl'). specialize (Hl' Hlive). subst tm.
    destruct (H3 k tm' Hkw Hlive) as (T' & HT' & Hto' & Hp).
    exists T'. rewrite G1, E1. repeat split; try done.
    assert (result T' ≠ result T) as Hne.
    { rewrite (H2 _ _ HT'), (H2 _ _ HT). intros Heq. rewrite Heq in HT'. congruence. }
    rewrite G2. destruct (is_truthy error).
    + rewrite list_lookup_alter_ne by done. by rewrite Hres.
    + by rewrite Hres.
  - intros k tm' Hk. rewrite G1, E1.
    destruct (Htim' k tm' Hk) as (tm0 & Hk0 & Ho & _).
    destruct (Htim k tm0 Hk0) as (tm & Hkw & Ho' & _).
    rewrite <- Ho, <- Ho'. by apply (H4 k).
  - intros x. rewrite G3, G1, E1, E3, list_elem_of_filter. intros [_ Hx]. by apply H5.
Qed.

Lemma wf_terminate t error w : wf w → wf (terminate t error w).
Proof.
  intros Hw. destruct (tasks w !! t) as [T|] eqn:HT.
  - apply (wf_terminate_from w w t T); try done.
    intros k tm0 Hk. exists tm0. auto.
  - by rewrite terminate_unknown_task.
Qed.

Lemma wf_catch t error w : wf w → wf (catch t error w).
Proof.
  intros Hw. destruct (catch_cases t error w) as [->|[_ ->]]; [done | by apply wf_terminate].
Qed.

Lemma wf_rerun t w : wf w → wf (rerun t w).
Proof.
  intros Hw. destruct (rerun_fields t w) as (H1 & H2 & H3 & H4 & _).
  by apply (wf_fields w).
Qed.

Lemma wf_set_poller h t w : wf w → wf (set_tasks (alter (set_poller h) t) w).
Proof.
  intros [H1 H2 H3 H4 H5].
  assert (∀ t' T', tasks w !! t' = Some T' →
            ∃ T'', alter (set_poller h) t (tasks w) !! t' = Some T''
                   ∧ result T'' = result T' ∧ timeout T'' = timeout T') as Hfw.
  { intros t' T' HT'. rewrite list_lookup_alter.
    destruct (decide (t = t')) as [->|]; rewrite HT'; simpl; eauto. }
  split; simpl; rewrite ?length_alter; try done.
  - intros t' T''. rewrite list_lookup_alter.
    destruct (decide (t = t')) as [->|]; [|by apply H2].
    destruct (tasks w !! t') as [T'|] eqn:HT'; simpl; [|done].
    intros [= <-]. simpl. by apply H2.
  - intros k tm Hk Hlive. destruct (H3 k tm Hk Hlive) as (T' & HT' & Hto & Hp).
    destruct (Hfw _ _ HT') as (T'' & HT'' & Hr & Hto'').
    exists T''. rewrite Hr, Hto''. done.
Qed.

Lemma wf_resume t a o w : wf w → wf (resume t a o w).
Proof.
  intros Hw. unfold resume. destruct (tasks w !! t) as [T|] eqn:HT; [|done].
  assert (∀ a' w', wf w' → wf (suspend t a' w')) as Hsusp.
  { intros a' w' Hw'. by apply (wf_fields w'). }
  destruct a, o; try (by apply Hsusp); try (by apply wf_catch); try done.
  - by apply Hsusp, wf_set_poller.
  - destruct (poller T); [by apply Hsusp | by apply wf_catch].
  - apply (wf_terminate_from w _ t T); simpl; try done.
    + by rewrite length_alter.
    + intros r Hr. by apply list_lookup_alter_ne.
    + intros k tm0 Hk. exists tm0. auto.
  - destruct (poller T); [by apply Hsusp | done].
  - by apply wf_set_poller.
Qed.

Lemma wf_constructor options f args w : wf w → wf (constructor options f args w).2.
Proof.
  intros [H1 H2 H3 H4 H5].
  pose proof (constructor_fields options f args w) as H. cbv zeta in H.
  destruct H as (_ & G1 & G2 & G3 & G4 & _).
  split; rewrite ?G1, ?G2, ?G3, ?G4, ?length_app; simpl.
  - lia.
  - intros t T HT. apply lookup_app_Some in HT as [HT|[Hlen HT]]; [by apply H2|].
    destruct (t - length (tasks w)) as [|n] eqn:Hn; [|done].
    injection HT as <-. simpl. lia.
  - intros k tm Hk Hlive.
    destruct (Number.truthy (opt_timeout options)) eqn:Hz.
    + apply lookup_app_Some in Hk as [Hk|[Hlen Hk]].
      * destruct (H3 k tm Hk Hlive) as (T & HT & Hto & Hp). exists T.
        split; [by apply lookup_app_l_Some | split; [done | by apply lookup_app_l_Some]].
      * destruct (k - length (timers w)) as [|n] eqn:Hn; [|done].
        injection Hk as <-. simpl. eexists. split; [apply lookup_last|]. simpl.
        split; [f_equal; lia | apply lookup_last].
    + destruct (H3 k tm Hk Hlive) as (T & HT & Hto & Hp). exists T.
      split; [by apply lookup_app_l_Some | split; [done | by apply lookup_app_l_Some]].
  - intros k tm Hk.
    assert (owner tm < length (tasks w) ∨ owner tm = length (tasks w)) as Ho; [|lia].
    destruct (Number.truthy (opt_timeout options)); [|left; by apply (H4 k)].
    apply lookup_app_Some in Hk as [Hk|[Hlen Hk]]; [left; by apply (H4 k)|].
    destruct (k - length (timers w)) as [|n]; [|done]. injection Hk as <-. by right.
  - intros t Ht.
    assert (t ∈ taskManager w ∨ t = length (tasks w)) as [Hin| ->]; [| |lia].
    { case_bool_decide; [auto|]. apply elem_of_app in Ht as [Ht|Ht]; [auto|].
      apply list_elem_of_singleton in Ht. auto. }
    specialize (H5 t Hin). lia.
Qed.

Lemma wf_foldl (g : World → nat → World) (l : list nat) w :
  (∀ w t, wf w → wf (g w t)) → wf w → wf (foldl g w l).
Proof.
  intros Hg. revert w. induction l as [|t l IH]; intros w Hw; simpl; auto.
Qed.

Lemma wf_step w ev : wf w → wf (step w ev).
Proof.
  intros Hw. destruct ev as [options f args|k o|k|t error|t|error|]; simpl.
  - by apply wf_constructor.
  - destruct (awaiting w !! k) as [[[t a]|]|]; try done.
    apply wf_resume. by apply (wf_fields w).
  - destruct (timers w !! k) as [tm|] eqn:Hk; [|done].
    destruct (live tm) eqn:Hlive; [|done].
    destruct (wf_timer w Hw k tm Hk Hlive) as (T & HT & Hto & Hp).
    apply (wf_terminate_from w _ (owner tm) T); simpl; try done.
    intros k' tm0 [(<- & <- & _)|[_ Hk']]%list_lookup_insert_Some.
    + exists tm. simpl. by repeat split.
    + exists tm0. auto.
  - by apply wf_terminate.
  - by apply wf_rerun.
  - unfold terminateAll.
    assert (wf (foldl (λ w t, terminate t
                  match error with Some e => UError e | None => undefined end w)
                  w (taskManager w))) as [H1 H2 H3 H4 H5].
    { apply wf_foldl; [|done]. intros w' t. apply wf_terminate. }
    split; simpl; try done. intros t Ht. by apply elem_of_nil in Ht.
  - apply wf_foldl; [|done]. intros w' t. apply wf_rerun.
Qed.

Lemma wf_run w evs : wf w → wf (run w evs).
Proof.
  revert w. induction evs as [|ev evs IH]; intros w Hw; simpl; [done|].
  by apply IH, wf_step.
Qed.

Lemma wf_reachable w : reachable w → wf w.
Proof. intros [evs ->]. apply wf_run, wf_empty. Qed.

(** *** The timer that the constructor arms *)

(** C8, as amended.  A task constructed with a timeout that is neither
    zero nor NaN arms one timer with that delay; when the timer expires the
    task is terminated with a [TimeoutError] whose message is 'Waiting
    failed: <timeout>ms exceeded', the timeout being printed as the
    template literal prints a number: its result is rejected with it and
    the task leaves the task manager; the timer expires once.  With a
    timeout that is zero or NaN no timer is made, the task holds none, and
    no timer that can still expire ever belongs to it. *)
Theorem constructor_arms_timeout options f args w :
  let t := (constructor options f args w).1 in
  let w' := (constructor options f args w).2 in
  let k := length (timers w) in
  (Number.is_zero (opt_timeout options) = false →
   Number.is_nan (opt_timeout options) = false →
     (∃ T, tasks w' !! t = Some T ∧ timeout T = Some k ∧ result T = length (results w))
     ∧ timers w' = timers w ++ [mkTimer t (opt_timeout options) true]
     ∧ results w' !! length (results w) = Some Pending
     ∧ timer_armed options f args w
     ∧ let w'' := step w' (Timeout k) in
       results w'' !! length (results w)
       = Some (Rejected (UError (mkError ClsTimeoutError
                 ("Waiting failed: " +:+ Number.toString (opt_timeout options)
                  +:+ "ms exceeded"))))
       ∧ (t ∉ taskManager w'')
       ∧ timers w'' = timers w ++ [mkTimer t (opt_timeout options) false]
       ∧ step w'' (Timeout k) = w'')
  ∧ (Number.is_zero (opt_timeout options) = true
     ∨ Number.is_nan (opt_timeout options) = true →
     (∃ T, tasks w' !! t = Some T ∧ timeout T = None)
     ∧ timers w' = timers w
     ∧ (reachable w → ∀ evs k tm,
          timers (run w' evs) !! k = Some tm → live tm = true → owner tm ≠ t)).
Proof.
  pose proof (constructor_fields options f args w) as H. cbv zeta in H.
  destruct H as (H0 & H1 & H2 & H3 & H4 & H5).
  cbv zeta. rewrite H0. split.
  - intros Hnz Hnn.
    assert (Number.truthy (opt_timeout options) = true) as Htr.
    { rewrite truthy_number. by rewrite Hnz, Hnn. }
    rewrite Htr in *.
    split; [|split; [|split; [|split]]].
    + eexists. rewrite H1, lookup_last. done.
    + done.
    + by rewrite H2, lookup_last.
    + exists (length (timers w)), (mkTimer (length (tasks w)) (opt_timeout options) true).
      rewrite H0, H4, lookup_last. done.
    + set (w' := (constructor options f args w).2) in *.
      set (x := UError (mkError ClsTimeoutError
                 ("Waiting failed: " +:+ Number.toString (opt_timeout options)
                  +:+ "ms exceeded"))).
      assert (step w' (Timeout (length (timers w)))
              = terminate (length (tasks w)) x
                  (set_timers (<[length (timers w) :=
                     mkTimer (length (tasks w)) (opt_timeout options) false]>) w')) as Hstep.
      { simpl. rewrite H4, lookup_last. done. }
      rewrite Hstep.
      match goal with |- context [terminate _ _ ?w0] => set (w1 := w0) in * end.
      assert (∃ T, tasks w1 !! length (tasks w) = Some T
                   ∧ result T = length (results w)
                   ∧ timeout T = Some (length (timers w))) as (T & Ht & Hres & Hto).
      { eexists. subst w1. simpl. rewrite H1, lookup_last. done. }
      destruct (terminate_fields _ _ x w1 Ht) as (G1 & G2 & G3 & G4 & G5 & G6).
      rewrite Hres in G2. rewrite Hto in G4. simpl in G2.
      assert (timers (terminate (length (tasks w)) x w1)
              = timers w ++ [mkTimer (length (tasks w)) (opt_timeout options) false]) as Htm.
      { rewrite G4. subst w1. simpl. rewrite H4.
        rewrite list_insert_alter, !alter_last. done. }
      repeat split.
      * rewrite G2. subst w1. simpl. rewrite H2, alter_last, lookup_last. done.
      * rewrite G3, list_elem_of_filter. tauto.
      * done.
      * simpl. rewrite Htm, lookup_last. done.
  - intros Hz.
    assert (Number.truthy (opt_timeout options) = false) as Hfa.
    { rewrite truthy_number. destruct Hz as [-> | ->]; [done | apply andb_false_r]. }
    rewrite Hfa in *.
    split; [eexists; by rewrite H1, lookup_last |]. split; [done |].
    intros Hw%wf_reachable evs k tm Hk Hlive Heq.
    assert (wf (run (constructor options f args w).2 evs)) as Hwf.
    { by apply wf_run, wf_constructor. }
    destruct (wf_timer _ Hwf k tm Hk Hlive) as (T' & HT' & Hto & _).
    rewrite Heq in HT'.
    destruct (evolves_run (constructor options f args w).2 evs) as (Et & _ & _).
    edestruct Et as (T'' & HT'' & Hs); [by rewrite H1, lookup_last |].
    apply same_task_fields in Hs as (_ & Hs & _). simpl in Hs.
    rewrite HT' in HT''. injection HT'' as ->. congruence.
Qed.

Lemma constructor_arms_timeout_witness :
  let w' := (constructor (mkOptions None (Every 100) None 250) (FnFunction "() => ready") []
               empty_world).2 in
  let w1 := (constructor (mkOptions None Raf None (10 ^ 21)) (FnString "window.ok") []
               empty_world).2 in
  timers w' = [mkTimer 0 250 true]
  ∧ results (step w' (Timeout 0)) !! 0
    = Some (Rejected (UError (mkError ClsTimeoutError "Waiting failed: 250ms exceeded")))
  ∧ results (step w1 (Timeout 0)) !! 0
    = Some (Rejected (UError (mkError ClsTimeoutError "Waiting failed: 1e+21ms exceeded")))
  ∧ timers (constructor (mkOptions None (Every 100) None 0) (FnFunction "() => ready") []
              empty_world).2 = []
  ∧ timers (constructor (mkOptions None (Every 100) None Number.NaN)
              (FnFunction "() => ready") [] empty_world).2 = [].
Proof.
  destruct (constructor_arms_timeout (mkOptions None (Every 100) None 250)
              (FnFunction "() => ready") [] empty_world) as [H _].
  destruct (constructor_arms_timeout (mkOptions None Raf None (10 ^ 21))
              (FnString "window.ok") [] empty_world) as [K _].
  destruct (constructor_arms_timeout (mkOptions None (Every 100) None 0)
              (FnFunction "() => ready") [] empty_world) as [_ G].
  destruct (constructor_arms_timeout (mkOptions None (Every 100) None Number.NaN)
              (FnFunction "() => ready") [] empty_world) as [_ N].
  destruct H as (_ & H1 & _ & _ & H2 & _); [reflexivity | reflexivity |].
  destruct K as (_ & _ & _ & _ & K2 & _); [reflexivity | reflexivity |].
  destruct G as (_ & G1 & _); [left; reflexivity |].
  destruct N as (_ & N1 & _); [right; reflexivity |].
  assert (Number.toString 250%Z = "250") as E1 by (vm_compute; reflexivity).
  assert (Number.toString (10 ^ 21)%Z = "1e+21") as E2 by (vm_compute; reflexivity).
  cbn [opt_timeout] in H2, K2. rewrite E1 in H2. rewrite E2 in K2.
  split; [exact H1 | split; [exact H2 | split; [exact K2 | split; [exact G1 | exact N1]]]].
Defined.

(** C8, as it was stated, fails for the timeout NaN: it is a number other
    than zero, and the constructor arms no timer for it, since NaN is
    falsy. *)
Lemma nan_timeout_arms_no_timer :
  Number.is_zero Number.NaN = false
  ∧ ¬ timer_armed (mkOptions None Raf None Number.NaN) (FnString "window.ready") []
        empty_world.
Proof.
  split; [done|]. intros (k & tm & Hk & _).
  assert (timers (constructor (mkOptions None Raf None Number.NaN) (FnString "window.ready") []
                    empty_world).2 = []) as E by (vm_compute; reflexivity).
  rewrite E in Hk. by rewrite lookup_nil in Hk.
Qed.

(** *** The timeout against a late success *)

(** C4.  In every world the event loop can reach, when a timer of a task
    expires, the result of the task is rejected with the [TimeoutError]
    that carries the configured duration and the task leaves the task
    manager; whatever happens afterwards, a result of the poller that
    arrives later included, the result of the task stays rejected with that
    error and the task stays out of the task manager. *)
Theorem timeout_wins_the_race w k tm :
  reachable w → timers w !! k = Some tm → live tm = true →
  let x := UError (mkError ClsTimeoutError
                     ("Waiting failed: " +:+ Number.toString (delay tm) +:+ "ms exceeded")) in
  let w1 := step w (Timeout k) in
  ∃ T, tasks w !! owner tm = Some T ∧ timeout T = Some k
       ∧ results w !! result T = Some Pending
       ∧ results w1 !! result T = Some (Rejected x)
       ∧ (owner tm ∉ taskManager w1)
       ∧ ∀ evs, results (run w1 evs) !! result T = Some (Rejected x)
                ∧ (owner tm ∉ taskManager (run w1 evs))
                ∧ ∃ T', tasks (run w1 evs) !! owner tm = Some T' ∧ result T' = result T.
Proof.
  intros Hw%wf_reachable Hk Hlive x w1.
  destruct (wf_timer w Hw k tm Hk Hlive) as (T & HT & Hto & Hp).
  exists T. split; [done|]. split; [done|]. split; [done|].
  assert (w1 = terminate (owner tm) x
                 (set_timers (<[k := mkTimer (owner tm) (delay tm) false]>) w)) as Hw1.
  { subst w1. simpl. by rewrite Hk, Hlive. }
  assert (tasks (set_timers (<[k := mkTimer (owner tm) (delay tm) false]>) w) !! owner tm
          = Some T) as HT0 by done.
  destruct (terminate_fields _ T x _ HT0) as (G1 & G2 & G3 & _).
  rewrite <- Hw1 in G1, G2, G3. simpl in G1, G2, G3.
  assert (results w1 !! result T = Some (Rejected x)) as Hrej.
  { by rewrite G2, list_lookup_alter_eq, Hp. }
  assert (owner tm ∉ taskManager w1) as Hout.
  { rewrite G3, list_elem_of_filter. tauto. }
  split; [done|]. split; [done|].
  intros evs. destruct (evolves_run w1 evs) as (Et & Er & Em).
  split; [|split].
  - destruct (Er _ _ Hrej) as (d' & Hd' & Hfin). by rewrite Hd', Hfin.
  - intros Hin. destruct (Em _ Hin) as [Hin'|Hge]; [done|].
    rewrite G1 in Hge. apply lookup_lt_Some in HT. lia.
  - rewrite <- G1 in HT. destruct (Et _ _ HT) as (T' & HT' & Hs).
    exists T'. split; [done|]. by apply same_task_fields in Hs as [-> _].
Qed.

Lemma timeout_wins_the_race_witness :
  let w := run empty_world
             [Construct (mkOptions None Raf None 100) (FnString "window.done") [];
              Settle 0 (Returns 0); Settle 1 (Returns 11); Settle 2 (Returns 0)] in
  awaiting w !! 3 = Some (Some (0, PollerResult 11))
  ∧ results (run (step w (Timeout 0)) [Settle 3 (Returns 42)]) !! 0
    = Some (Rejected (UError (mkError ClsTimeoutError "Waiting failed: 100ms exceeded"))).
Proof.
  split; [reflexivity |].
  destruct (timeout_wins_the_race
              (run empty_world
                 [Construct (mkOptions None Raf None 100) (FnString "window.done") [];
                  Settle 0 (Returns 0); Settle 1 (Returns 11); Settle 2 (Returns 0)])
              0 (mkTimer 0 100 true))
    as (T & HT & _ & _ & _ & _ & H).
  - eexists. reflexivity.
  - reflexivity.
  - reflexivity.
  - injection HT as <-. exact (proj1 (H [Settle 3 (Returns 42)])).
Defined.

(** *** One result for the whole life of a task *)

Lemma lengths_terminate t error w :
  length (tasks (terminate t error w)) = length (tasks w)
  ∧ length (results (terminate t error w)) = length (results w).
Proof.
  destruct (tasks w !! t) as [T|] eqn:Ht.
  - destruct (terminate_fields t T error w Ht) as (-> & -> & _).
    by destruct (is_truthy error); rewrite ?length_alter.
  - by rewrite terminate_unknown_task.
Qed.

Lemma lengths_catch t error w :
  length (tasks (catch t error w)) = length (tasks w)
  ∧ length (results (catch t error w)) = length (results w).
Proof.
  destruct (catch_cases t error w) as [->|[_ ->]]; [done | apply lengths_terminate].
Qed.

Lemma lengths_resume t a o w :
  length (tasks (resume t a o w)) = length (tasks w)
  ∧ length (results (resume t a o w)) = length (results w).
Proof.
  unfold resume. destruct (tasks w !! t) as [T|]; [|done].
  destruct a, o; simpl; rewrite ?length_alter; try done; try apply lengths_catch.
  - destruct (poller T); [done | apply lengths_catch].
  - match goal with |- context [terminate ?t0 ?x ?w0] =>
      destruct (lengths_terminate t0 x w0) as [-> ->] end.
    simpl. by rewrite length_alter.
  - by destruct (poller T).
Qed.

Lemma lengths_foldl (g : World → nat → World) (l : list nat) w :
  (∀ w t, length (tasks (g w t)) = length (tasks w)
          ∧ length (results (g w t)) = length (results w)) →
  length (tasks (foldl g w l)) = length (tasks w)
  ∧ length (results (foldl g w l)) = length (results w).
Proof.
  intros Hg. revert w. induction l as [|t l IH]; intros w; simpl; [done|].
  destruct (IH (g w t)) as [-> ->]. apply Hg.
Qed.

(** Deferred promises, like tasks, are created by the constructor alone,
    one for each task. *)
Lemma lengths_step w ev :
  length (tasks (step w ev)) = length (tasks w) + created ev
  ∧ length (results (step w ev)) = length (results w) + created ev.
Proof.
  destruct ev as [options f args|k o|k|t error|t|error|]; cbn [step created];
    rewrite ?Nat.add_0_r.
  - pose proof (constructor_fields options f args w) as H. cbv zeta in H.
    destruct H as (_ & -> & -> & _). by rewrite !length_app.
  - destruct (awaiting w !! k) as [[[t a]|]|]; try done.
    by destruct (lengths_resume t a o (set_awaiting (<[k := None]>) w)) as [-> ->].
  - destruct (timers w !! k) as [tm|]; [|done]. destruct (live tm); [|done].
    match goal with |- context [terminate ?t ?x ?w0] =>
      by destruct (lengths_terminate t x w0) as [-> ->] end.
  - apply lengths_terminate.
  - by destruct (rerun_fields t w) as (-> & -> & _).
  - unfold terminateAll. simpl. apply lengths_foldl. intros w' t. apply lengths_terminate.
  - apply lengths_foldl. intros w' t. by destruct (rerun_fields t w') as (-> & -> & _).
Qed.

Lemma finished_stays r w ev :
  result_finished r w = true → result_finished r (step w ev) = true.
Proof.
  unfold result_finished. destruct (results w !! r) as [d|] eqn:Hd; [|done].
  intros Hfin. destruct (evolves_step w ev) as (_ & Er & _).
  destruct (Er _ _ Hd) as (d' & -> & Heq). by rewrite Heq.
Qed.

Lemma settlements_finished r w evs :
  result_finished r w = true → settlements r w evs = 0.
Proof.
  revert w. induction evs as [|ev evs IH]; intros w Hfin; simpl; [done|].
  rewrite Hfin. simpl. apply IH. by apply finished_stays.
Qed.

Lemma settlements_once r w evs : settlements r w evs ≤ 1.
Proof.
  revert w. induction evs as [|ev evs IH]; intros w; simpl; [lia|].
  destruct (result_finished r w) eqn:Hfin; simpl.
  - rewrite settlements_finished; [lia | by apply finished_stays].
  - destruct (result_finished r (step w ev)) eqn:Hfin'.
    + by rewrite settlements_finished.
    + apply IH.
Qed.

(** C1.  Along every run of the event loop, with any number of calls of
    [rerun()]: the constructor of a task creates one deferred promise and no
    other event creates any; the [#result] of a task is the same deferred
    promise ever after; that promise goes from pending to settled at most
    once, and once settled it keeps its settlement. *)
Theorem result_created_once_settled_once w evs :
  length (results (run w evs)) = length (results w) + sum_list (created <$> evs)
  ∧ length (tasks (run w evs)) = length (tasks w) + sum_list (created <$> evs)
  ∧ (∀ t T, tasks w !! t = Some T →
       ∃ T', tasks (run w evs) !! t = Some T' ∧ result T' = result T
             ∧ settlements (result T) w evs ≤ 1
             ∧ ∀ d, results w !! result T = Some d → finished d = true →
                    results (run w evs) !! result T = Some d).
Proof.
  split; [|split].
  - revert w. induction evs as [|ev evs IH]; intros w; [simpl; lia|].
    change (run w (ev :: evs)) with (run (step w ev) evs).
    rewrite IH, fmap_cons. destruct (lengths_step w ev) as [_ ->]. simpl. lia.
  - revert w. induction evs as [|ev evs IH]; intros w; [simpl; lia|].
    change (run w (ev :: evs)) with (run (step w ev) evs).
    rewrite IH, fmap_cons. destruct (lengths_step w ev) as [-> _]. simpl. lia.
  - intros t T HT. destruct (evolves_run w evs) as (Et & Er & _).
    destruct (Et _ _ HT) as (T' & HT' & Hs). exists T'.
    split; [done|]. split; [by apply same_task_fields in Hs as [-> _]|].
    split; [apply settlements_once|].
    intros d Hd Hfin. destruct (Er _ _ Hd) as (d' & Hd' & Heq). by rewrite Hd', Heq.
Qed.

Lemma result_created_once_settled_once_witness :
  let evs := [Construct (mkOptions None Mutation None 0) (FnString "window.ok") [];
              Settle 0 (Returns 0);
              Settle 1 (Throws (UError (mkError ClsError
                 "Protocol error (Runtime.callFunctionOn): Execution context was destroyed.")));
              RerunAll; Settle 2 (Returns 0); Settle 3 (Returns 12);
              Rerun 0; Settle 4 (Returns 0); Settle 6 (Returns 7); Settle 7 (Returns 0)] in
  let w := run empty_world evs in
  let T := mk [] Mutation None "() => {return (window.ok);}" [] None 0 (Some 12) in
  tasks w !! 0 = Some T
  ∧ results w !! 0 = Some (Fulfilled 7)
  ∧ ∃ T', tasks (run w [Timeout 0; TerminateAll None; Rerun 0]) !! 0 = Some T'
          ∧ result T' = result T
          ∧ settlements (result T) w [Timeout 0; TerminateAll None; Rerun 0] ≤ 1
          ∧ results (run w [Timeout 0; TerminateAll None; Rerun 0]) !! result T
            = Some (Fulfilled 7).
Proof.
  intros evs w T.
  assert (tasks w !! 0 = Some T) as HT by (vm_compute; reflexivity).
  assert (results w !! result T = Some (Fulfilled 7)) as Hd by (vm_compute; reflexivity).
  split; [exact HT |]. split; [exact Hd |].
  destruct (proj2 (proj2 (result_created_once_settled_once w
                            [Timeout 0; TerminateAll None; Rerun 0])) 0 T HT)
    as (T' & HT' & Hr & Hs & Hkeep).
  exists T'. split; [exact HT' |]. split; [exact Hr |]. split; [exact Hs |].
  exact (Hkeep (Fulfilled 7) Hd eq_refl).
Defined.
End Tasks.

(** * The pollers at work *)

Section PollersAtWork.

Implicit Types (vr : variant) (c : list host_call) (o : outcome value) (v : value)
  (s : poller * Page).


Lemma start_falsy_watching vr v :
  truthy v = false →
  start (Returns v) (new_poller vr, empty_page)
  = (Normal, watching vr (CallFn :: match vr with
                                    | MutationWatch root => [Observe root true true true]
                                    | AnimationFrame => [RequestAnimationFrame]
                                    | FixedInterval ms => [SetInterval ms]
                                    end)).
Proof.
  intros Hv. destruct vr; unfold start, MutationPoller.start, RAFPoller.start,
    IntervalPoller.start; simpl; by rewrite Hv.
Qed.

Lemma fire_falsy vr c v :
  truthy v = false →
  fire (Returns v) (watching vr c)
  = (Normal, watching vr (c ++ CallFn :: match vr with
                                         | AnimationFrame => [RequestAnimationFrame]
                                         | _ => []
                                         end)).
Proof.
  intros Hv. destruct vr; unfold fire, RAFPoller.next_frame, RAFPoller.poll_call;
    simpl; rewrite ?Hv; simpl;
    unfold lift, call, set_frames, set_observers, set_intervals, set_promises; simpl;
    rewrite <- ?app_assoc; done.
Qed.

Lemma fire_truthy vr c v :
  truthy v = true →
  fire (Returns v) (watching vr c)
  = (Normal, at_rest vr (Fulfilled v)
               (c ++ CallFn :: match vr with
                               | MutationWatch _ => [Disconnect 0]
                               | AnimationFrame => []
                               | FixedInterval _ => [ClearInterval 0]
                               end)).
Proof.
  intros Hv. destruct vr; unfold fire, RAFPoller.next_frame, RAFPoller.poll_call,
    MutationPoller.stop, IntervalPoller.stop, RAFPoller.stop;
    simpl; rewrite ?Hv; simpl;
    unfold lift, call, set_frames, set_observers, set_intervals, set_promises; simpl;
    rewrite <- ?app_assoc; done.
Qed.

Lemma fire_throws vr c e :
  fire (Throws e) (watching vr c)
  = (Abrupt e, match vr with
               | AnimationFrame => at_rest vr Pending (c ++ [CallFn])
               | _ => watching vr (c ++ [CallFn])
               end).
Proof. by destruct vr. Qed.

Lemma fire_at_rest vr d c o : fire o (at_rest vr d c) = (Normal, at_rest vr d c).
Proof. by destruct vr. Qed.

Lemma fires_cons o os s : fires (o :: os) s = fires os (fire o s).2.
Proof. done. Qed.


Lemma fires_at_rest vr d c os : fires os (at_rest vr d c) = at_rest vr d c.
Proof. induction os as [|o os IH]; [done|]. by rewrite fires_cons, fire_at_rest. Qed.

Lemma fires_falsy vr c vs :
  Forall (λ v, truthy v = false) vs →
  ∃ c', fires (Returns <$> vs) (watching vr c) = watching vr c'
        ∧ evaluations (watching vr c').2 = evaluations (watching vr c).2 + length vs.
Proof.
  intros Hvs. revert c. induction Hvs as [|v vs Hv _ IH]; intros c.
  - exists c. split; [done | simpl; lia].
  - rewrite fmap_cons, fires_cons, (fire_falsy vr c v Hv). cbn [snd].
    destruct (IH (c ++ CallFn :: match vr with
                                  | AnimationFrame => [RequestAnimationFrame]
                                  | _ => []
                                  end)) as (c' & -> & Hc').
    exists c'. split; [done|]. rewrite Hc'.
    destruct vr; unfold evaluations; simpl; rewrite List.filter_app, length_app; simpl; lia.
Qed.




Lemma evaluations_snoc g g' (l : list host_call) :
  calls g' = calls g ++ l →
  evaluations g' = evaluations g
    + length (List.filter (λ x, match x with CallFn => true | _ => false end) l).
Proof. intros H. unfold evaluations. by rewrite H, List.filter_app, length_app. Qed.


Lemma stop_watching vr c :
  stop (watching vr c)
  = (Normal, match vr with
             | MutationWatch _ => at_rest vr (Rejected polling_stopped) (c ++ [Disconnect 0])
             | AnimationFrame =>
               (OfRAF (RAFPoller.mk (Some 0)), mkPage [Rejected polling_stopped] [] [0] [] c)
             | FixedInterval _ => at_rest vr (Rejected polling_stopped) (c ++ [ClearInterval 0])
             end).
Proof. by destruct vr. Qed.

Lemma fire_stopped_frame c o :
  fire o (OfRAF (RAFPoller.mk (Some 0)), mkPage [Rejected polling_stopped] [] [0] [] c)
  = (Normal, at_rest AnimationFrame (Rejected polling_stopped) c).
Proof. done. Qed.



(** X2.  [stop()] on a started poller that has seen only falsy values
    returns and rejects the promise with 'Polling stopped'.  Whatever the
    page runs afterwards, the promise stays so and the predicate is not
    evaluated again.  The observer and the interval are gone at once; the
    animation frame is gone as soon as it has run once. *)
Theorem stop_is_final vr v0 vs os :
  truthy v0 = false → Forall (λ x, truthy x = false) vs →
  let s := fires (Returns <$> vs) (start (Returns v0) (new_poller vr, empty_page)).2 in
  let s' := fires os (stop s).2 in
  (stop s).1 = Normal
  ∧ promises s'.2 = [Rejected polling_stopped]
  ∧ evaluations s.2 = length vs + 1
  ∧ evaluations s'.2 = evaluations s.2
  ∧ watch_of s'.1 = None
  ∧ (os ≠ [] ∨ vr ≠ AnimationFrame → armed s'.2 = false).
Proof.
  intros Hv0 Hvs. cbv zeta.
  rewrite (start_falsy_watching vr v0 Hv0). cbn [snd].
  destruct (fires_falsy vr (CallFn :: match vr with
                                      | MutationWatch root => [Observe root true true true]
                                      | AnimationFrame => [RequestAnimationFrame]
                                      | FixedInterval ms => [SetInterval ms]
                                      end) vs Hvs) as (c' & -> & Hc').
  assert (evaluations (watching vr c').2 = length vs + 1) as Hn.
  { rewrite Hc'. destruct vr; unfold evaluations; simpl; lia. }
  rewrite stop_watching. cbn [fst snd].
  split; [done|]. destruct vr as [root| |ms].
  - rewrite fires_at_rest. repeat split; try done.
    erewrite (evaluations_snoc (watching (MutationWatch root) c').2); [|done]. simpl. lia.
  - destruct os as [|o os].
    + repeat split; try done. intros [?|?]; done.
    + rewrite fires_cons, fire_stopped_frame. cbn [snd]. rewrite fires_at_rest.
      repeat split; done.
  - rewrite fires_at_rest. repeat split; try done.
    erewrite (evaluations_snoc (watching (FixedInterval ms) c').2); [|done]. simpl. lia.
Qed.

Lemma stop_is_final_witness :
  let s := fires [Returns VNull] (start (Returns VUndefined) (new_poller AnimationFrame, empty_page)).2 in
  let s' := fires [Returns (VBool true); Returns (VBool true)] (stop s).2 in
  promises s'.2 = [Rejected polling_stopped] ∧ evaluations s'.2 = 2 ∧ armed s'.2 = false.
Proof.
  destruct (stop_is_final AnimationFrame VUndefined [VNull]
              [Returns (VBool true); Returns (VBool true)] eq_refl)
    as (_ & H1 & H2 & H3 & _ & H4).
  - repeat constructor.
  - split; [exact H1 | split; [exact (eq_trans H3 H2) | apply H4; by left]].
Defined.


(** X3.  When the predicate throws inside a callback, the exception leaves
    the callback, since no poller catches it, and the promise stays pending.
    The observer and the interval stay registered, and a later truthy value
    still fulfils the promise.  The frame callback has not requested the
    next frame: the animation-frame poller is disarmed and never evaluates
    the predicate again. *)
Theorem callback_failure vr v0 vs e :
  truthy v0 = false → Forall (λ x, truthy x = false) vs →
  let s := fires (Returns <$> vs) (start (Returns v0) (new_poller vr, empty_page)).2 in
  let r := fire (Throws e) s in
  r.1 = Abrupt e
  ∧ promises r.2.2 = [Pending]
  ∧ evaluations r.2.2 = length vs + 2
  ∧ match vr with
    | AnimationFrame => armed r.2.2 = false ∧ ∀ os, fires os r.2 = r.2
    | _ => armed r.2.2 = true
           ∧ ∀ v, truthy v = true → promises (fire (Returns v) r.2).2.2 = [Fulfilled v]
    end.
Proof.
  intros Hv0 Hvs. cbv zeta.
  rewrite (start_falsy_watching vr v0 Hv0). cbn [snd].
  destruct (fires_falsy vr (CallFn :: match vr with
                                      | MutationWatch root => [Observe root true true true]
                                      | AnimationFrame => [RequestAnimationFrame]
                                      | FixedInterval ms => [SetInterval ms]
                                      end) vs Hvs) as (c' & -> & Hc').
  assert (evaluations (watching vr c').2 = length vs + 1) as Hn.
  { rewrite Hc'. destruct vr; unfold evaluations; simpl; lia. }
  rewrite fire_throws. cbn [fst snd]. split; [done|].
  destruct vr as [root| |ms].
  - split; [done|]. split.
    { rewrite (evaluations_snoc (watching (MutationWatch root) c').2 _ [CallFn]), Hn; [simpl; lia | done]. }
    split; [done|]. intros v Hv. by rewrite (fire_truthy (MutationWatch root) _ v Hv).
  - split; [done|]. split.
    { rewrite (evaluations_snoc (watching AnimationFrame c').2 _ [CallFn]), Hn; [simpl; lia | done]. }
    split; [done|]. intros os. apply fires_at_rest.
  - split; [done|]. split.
    { rewrite (evaluations_snoc (watching (FixedInterval ms) c').2 _ [CallFn]), Hn; [simpl; lia | done]. }
    split; [done|]. intros v Hv. by rewrite (fire_truthy (FixedInterval ms) _ v Hv).
Qed.

Lemma callback_failure_witness :
  let s := fires [Returns VNull]
             (start (Returns (VNum 0)) (new_poller AnimationFrame, empty_page)).2 in
  let r := fire (Throws (UError (mkError ClsError "boom"))) s in
  r.1 = Abrupt (UError (mkError ClsError "boom")) ∧ promises r.2.2 = [Pending]
  ∧ armed r.2.2 = false.
Proof.
  destruct (callback_failure AnimationFrame (VNum 0) [VNull]
              (UError (mkError ClsError "boom")) eq_refl)
    as (H1 & H2 & _ & H3 & _).
  - repeat constructor.
  - split; [exact H1 | split; [exact H2 | exact H3]].
Defined.

(** X4.  When the first evaluation throws, [start()] fails with the thrown
    value: the promise it created stays pending and nothing is registered
    with the page, on whichever poller and page.  The poller holds the
    promise, so that [result()] returns it, and a later [stop()] returns and
    rejects it with 'Polling stopped'. *)
Theorem first_evaluation_throws (p : poller) (g : Page) e :
  let r := start (Throws e) (p, g) in
  r.1 = Abrupt e
  ∧ promises r.2.2 = promises g ++ [Pending]
  ∧ observers r.2.2 = observers g ∧ frames r.2.2 = frames g
  ∧ intervals r.2.2 = intervals g
  ∧ watch_of r.2.1 = watch_of p
  ∧ result r.2 = Returns (length (promises g))
  ∧ (stop r.2).1 = Normal
  ∧ promises (stop r.2).2.2 = promises g ++ [Rejected polling_stopped].
Proof.
  cbv zeta.
  assert (∃ p', start (Throws e) (p, g)
                = (Abrupt e, (p', call CallFn (set_promises (λ ps, ps ++ [Pending]) g)))
                ∧ promise_of p' = Some (length (promises g))
                ∧ watch_of p' = watch_of p) as (p' & -> & Hr & Hw).
  { destruct p; eexists; (split; [reflexivity | done]). }
  cbn [fst snd].
  destruct (stop_rejects_pending p' (call CallFn (set_promises (λ ps, ps ++ [Pending]) g))
              _ Hr) as (Hn & _ & _ & Hs).
  rewrite Hn, Hs. simpl. rewrite alter_last.
  repeat split; try done.
  destruct p'; simpl in *; unfold result, MutationPoller.result, RAFPoller.result,
    IntervalPoller.result; simpl; by rewrite Hr.
Qed.



(** X6.  A second [start()] on a poller whose first run is still watching
    makes a new promise, which [result()] returns from then on, and a new
    observer, frame callback or interval.  [stop()] rejects the second
    promise only: the first stays pending for ever, what the first [start()]
    registered with the page stays armed, and stopping again changes
    nothing. *)
Theorem second_start_leaks_first_watch vr v1 v2 :
  truthy v1 = false → truthy v2 = false →
  let s := (start (Returns v2) (start (Returns v1) (new_poller vr, empty_page)).2).2 in
  result s = Returns 1
  ∧ (stop s).1 = Normal
  ∧ promises (stop s).2.2 = [Pending; Rejected polling_stopped]
  ∧ armed (stop s).2.2 = true
  ∧ stop (stop s).2 = (Normal, (stop s).2).
Proof.
  intros H1 H2. cbv zeta. rewrite (start_falsy_watching vr v1 H1). cbn [snd].
  destruct vr; unfold start, MutationPoller.start, RAFPoller.start, IntervalPoller.start;
    simpl; rewrite H2; done.
Qed.

Lemma second_start_leaks_first_watch_witness :
  let s := (start (Returns VNull)
              (start (Returns VNull) (new_poller (MutationWatch 1), empty_page)).2).2 in
  observers (stop s).2.2 = [(0, Some 1); (1, None)]
  ∧ promises (stop s).2.2 = [Pending; Rejected polling_stopped].
Proof.
  destruct (second_start_leaks_first_watch (MutationWatch 1) VNull VNull eq_refl eq_refl)
    as (_ & _ & H & _).
  split; [reflexivity | exact H].
Defined.

End PollersAtWork.

(** * The tasks and their manager at work *)

Section TaskManagerAtWork.

Import WaitTask.

Implicit Types (w : World) (T : WaitTask.t) (e error : unknown) (ev : event)
  (evs : list event) (a : awaited) (o : outcome nat).

(** *** The set of the task manager *)

Lemma world_eta w :
  mkWorld (tasks w) (results w) (taskManager w) (boundFunctions w) (timers w) (awaiting w) = w.
Proof. by destruct w. Qed.

Lemma filter_ne_absent (t : nat) (l : list nat) :
  t ∉ l → filter (λ x, x ≠ t) l = l.
Proof.
  induction l as [|x l IH]; [done|]. intros Hnot.
  apply not_elem_of_cons in Hnot as [Hne Hnot].
  rewrite filter_cons. destruct (decide (x ≠ t)) as [|Hn]; [by rewrite IH|].
  exfalso. apply Hn. congruence.
Qed.

(** X7.  The tasks of the manager behave as a set: [add] and [delete] are
    idempotent, [add] of a member and [delete] of a non-member change
    nothing, [delete] undoes the [add] of a new task, neither touches the
    membership of another task, and both keep the tasks without
    repetition. *)
Theorem add_delete_as_a_set t w :
  t ∈ taskManager (add t w)
  ∧ add t (add t w) = add t w
  ∧ (t ∉ taskManager (delete t w))
  ∧ delete t (delete t w) = delete t w
  ∧ (NoDup (taskManager w) →
       NoDup (taskManager (add t w)) ∧ NoDup (taskManager (delete t w)))
  ∧ (t ∈ taskManager w → add t w = w)
  ∧ (t ∉ taskManager w →
       delete t w = w ∧ delete t (add t w) = w
       ∧ length (taskManager (add t w)) = S (length (taskManager w)))
  ∧ (∀ x, x ≠ t →
       (x ∈ taskManager (add t w) ↔ x ∈ taskManager w)
       ∧ (x ∈ taskManager (delete t w) ↔ x ∈ taskManager w)).
Proof.
  destruct w as [ts rs tm bf tms aw]. unfold add, delete, set_taskManager. simpl.
  split. { case_bool_decide; [done|]. apply elem_of_app. right. by apply list_elem_of_singleton. }
  split.
  { f_equal. destruct (decide (t ∈ tm)) as [Hin|Hnot].
    - by rewrite !(bool_decide_eq_true_2 (t ∈ tm)).
    - rewrite (bool_decide_eq_false_2 (t ∈ tm)) by done.
      rewrite bool_decide_eq_true_2; [done|].
      apply elem_of_app. right. by apply list_elem_of_singleton. }
  split. { rewrite list_elem_of_filter. tauto. }
  split. { f_equal. apply filter_ne_twice. }
  split.
  { intros Hnd. split; [|by apply NoDup_filter].
    case_bool_decide as H1; [done|]. apply NoDup_app. split; [done|]. split.
    - intros x Hx ->%list_elem_of_singleton. done.
    - apply NoDup_singleton. }
  split. { intros Hin. by rewrite bool_decide_eq_true_2. }
  split.
  { intros Hnot. rewrite bool_decide_eq_false_2 by done.
    rewrite filter_app, filter_ne_absent by done.
    rewrite filter_cons, decide_False by (intros H; by apply H). rewrite filter_nil, app_nil_r.
    rewrite length_app. simpl. split; [done | split; [done | lia]]. }
  intros x Hx. split.
  - case_bool_decide; [done|]. rewrite elem_of_app, list_elem_of_singleton. tauto.
  - rewrite list_elem_of_filter. tauto.
Qed.

Lemma add_delete_as_a_set_witness :
  let w := mkWorld [] [] [4; 7] ∅ [] [] in
  taskManager (add 7 w) = [4; 7] ∧ taskManager (add 9 w) = [4; 7; 9]
  ∧ taskManager (delete 4 w) = [7] ∧ delete 9 w = w.
Proof.
  pose proof (add_delete_as_a_set 7 (mkWorld [] [] [4; 7] ∅ [] [])) as (_ & _ & _ & _ & _ & H1 & _).
  pose proof (add_delete_as_a_set 9 (mkWorld [] [] [4; 7] ∅ [] [])) as (_ & _ & _ & _ & _ & _ & H2 & _).
  split; [by rewrite H1; [| apply list_elem_of_further, list_elem_of_here] |].
  split; [reflexivity |]. split; [reflexivity |].
  apply H2. intros Hin. apply elem_of_cons in Hin as [?|Hin]; [done|].
  apply elem_of_cons in Hin as [?|Hin]; [done|]. by apply elem_of_nil in Hin.
Defined.


(** *** Running all tasks again *)

Lemma rerun_first_await t w :
  rerun t w = match tasks w !! t with
              | Some T => suspend t (first_await T) w
              | None => w
              end.
Proof.
  unfold rerun, first_await. destruct (tasks w !! t) as [T|]; [|done].
  by destruct (bindings T).
Qed.

Lemma foldl_rerun_fields (l : list nat) w :
  let w' := foldl (λ w t, rerun t w) w l in
  tasks w' = tasks w ∧ results w' = results w ∧ taskManager w' = taskManager w
  ∧ timers w' = timers w ∧ boundFunctions w' = boundFunctions w
  ∧ awaiting w' = awaiting w
      ++ omap (λ t, (λ T, Some (t, first_await T)) <$> tasks w !! t) l.
Proof.
  revert w. induction l as [|t l IH]; intros w; simpl.
  - by rewrite app_nil_r.
  - destruct (IH (rerun t w)) as (H1 & H2 & H3 & H4 & H5 & H6).
    rewrite H1, H2, H3, H4, H5, H6, rerun_first_await.
    destruct (tasks w !! t) as [T|] eqn:HT; simpl; [|done].
    by rewrite <- app_assoc.
Qed.

Lemma rerunAll_fields w :
  tasks (rerunAll w) = tasks w ∧ results (rerunAll w) = results w
  ∧ taskManager (rerunAll w) = taskManager w ∧ timers (rerunAll w) = timers w
  ∧ boundFunctions (rerunAll w) = boundFunctions w
  ∧ awaiting (rerunAll w) = awaiting w
      ++ omap (λ t, (λ T, Some (t, first_await T)) <$> tasks w !! t) (taskManager w).
Proof. apply foldl_rerun_fields. Qed.

(** *** The task manager in reachable worlds *)

Lemma tidy_empty : tidy empty_world.
Proof.
  split; simpl.
  - apply NoDup_nil_2.
  - intros t Ht. by apply elem_of_nil in Ht.
  - intros k tm Hk. done.
Qed.

Lemma tidy_fields w w' :
  tidy w → tasks w' = tasks w → results w' = results w →
  taskManager w' = taskManager w → timers w' = timers w → tidy w'.
Proof.
  intros [H1 H2 H3] E1 E2 E3 E4. split; rewrite ?E1, ?E2, ?E3, ?E4; done.
Qed.

Lemma tidy_terminate_from w w0 t T error :
  wf w → tidy w → tasks w !! t = Some T →
  tasks w0 = tasks w → taskManager w0 = taskManager w →
  (∀ r, r ≠ result T → results w0 !! r = results w !! r) →
  (∀ k tm0, timers w0 !! k = Some tm0 →
     ∃ tm, timers w !! k = Some tm ∧ owner tm = owner tm0 ∧ (live tm0 = true → tm0 = tm)) →
  tidy (terminate t error w0).
Proof.
  intros Hwf [N1 N2 N3] HT E1 E3 Hres Htim.
  assert (tasks w0 !! t = Some T) as HT0 by by rewrite E1.
  destruct (terminate_fields t T error w0 HT0) as (G1 & G2 & G3 & G4 & _).
  split.
  - rewrite G3, E3. by apply NoDup_filter.
  - intros t'. rewrite G3, E3, list_elem_of_filter. intros [Hne Hin].
    destruct (N2 t' Hin) as (T' & HT' & Hp). exists T'. rewrite G1, E1. split; [done|].
    assert (result T' ≠ result T) as Hr.
    { rewrite (wf_result w Hwf _ _ HT'), (wf_result w Hwf _ _ HT). done. }
    rewrite G2. destruct (is_truthy error).
    + rewrite list_lookup_alter_ne by done. by rewrite Hres.
    + by rewrite Hres.
  - intros k tm' Hk Hlive. rewrite G3, E3, list_elem_of_filter.
    assert (timers w0 !! k = Some tm' ∧ timeout T ≠ Some k) as [Hk0 Hto].
    { rewrite G4 in Hk. destruct (timeout T) as [k0|]; [|done].
      rewrite list_lookup_alter in Hk. destruct (decide (k0 = k)) as [->|Hne].
      - destruct (timers w0 !! k) as [tm0|]; simpl in Hk; [|done].
        injection Hk as <-. done.
      - split; [done | congruence]. }
    destruct (Htim k tm' Hk0) as (tm & Hkw & _ & Heq). specialize (Heq Hlive). subst tm.
    split; [|by apply (N3 k)].
    destruct (wf_timer w Hwf k tm' Hkw Hlive) as (T' & HT' & Hto' & _).
    intros Heq. rewrite Heq in HT'. congruence.
Qed.

Lemma tidy_terminate t error w : wf w → tidy w → tidy (terminate t error w).
Proof.
  intros Hw Ht. destruct (tasks w !! t) as [T|] eqn:HT.
  - apply (tidy_terminate_from w w t T); try done.
    intros k tm0 Hk. exists tm0. auto.
  - by rewrite terminate_unknown_task.
Qed.

Lemma tidy_catch t error w : wf w → tidy w → tidy (catch t error w).
Proof.
  intros Hw Ht. destruct (catch_cases t error w) as [->|[_ ->]];
    [done | by apply tidy_terminate].
Qed.

Lemma tidy_rerun t w : tidy w → tidy (rerun t w).
Proof.
  intros Ht. destruct (rerun_fields t w) as (H1 & H2 & H3 & H4 & _).
  by apply (tidy_fields w).
Qed.

Lemma tidy_set_poller h t w : tidy w → tidy (set_tasks (alter (set_poller h) t) w).
Proof.
  intros [N1 N2 N3]. split; simpl; try done.
  intros t' Hin. destruct (N2 t' Hin) as (T' & HT' & Hp).
  rewrite list_lookup_alter. destruct (decide (t = t')) as [->|]; rewrite HT'; simpl; eauto.
Qed.

Lemma tidy_resume t a o w : wf w → tidy w → tidy (resume t a o w).
Proof.
  intros Hw Ht. unfold resume. destruct (tasks w !! t) as [T|] eqn:HT; [|done].
  assert (∀ a' w', tidy w' → tidy (suspend t a' w')) as Hsusp.
  { intros a' w' Hw'. by apply (tidy_fields w'). }
  destruct a, o; try (by apply Hsusp); try (by apply tidy_catch); try done.
  - by apply Hsusp, tidy_set_poller.
  - destruct (poller T); [by apply Hsusp | by apply tidy_catch].
  - apply (tidy_terminate_from w _ t T); simpl; try done.
    + intros r Hr. by apply list_lookup_alter_ne.
    + intros k tm0 Hk. exists tm0. auto.
  - destruct (poller T); [by apply Hsusp | done].
  - by apply tidy_set_poller.
Qed.

Lemma tidy_constructor options f args w :
  wf w → tidy w → tidy (constructor options f args w).2.
Proof.
  intros Hwf [N1 N2 N3].
  pose proof (constructor_fields options f args w) as H. cbv zeta in H.
  destruct H as (_ & G1 & G2 & G3 & G4 & _).
  assert (length (tasks w) ∉ taskManager w) as Hfresh.
  { intros Hin. apply (wf_manager w Hwf) in Hin. lia. }
  rewrite bool_decide_eq_false_2 in G3 by done.
  split; rewrite ?G1, ?G2, ?G3, ?G4.
  - apply NoDup_app. split; [done|]. split; [|apply NoDup_singleton].
    intros x Hx ->%list_elem_of_singleton. done.
  - intros t [Hin| ->%list_elem_of_singleton]%elem_of_app.
    + destruct (N2 t Hin) as (T & HT & Hp). exists T.
      split; by apply lookup_app_l_Some.
    + eexists. split; [apply lookup_last|]. simpl. apply lookup_last.
  - intros k tm Hk Hlive. apply elem_of_app.
    destruct (Number.truthy (opt_timeout options)); [|left; by apply (N3 k)].
    apply lookup_app_Some in Hk as [Hk|[_ Hk]]; [left; by apply (N3 k)|].
    destruct (k - length (timers w)) as [|n]; [|done]. injection Hk as <-.
    right. by apply list_elem_of_singleton.
Qed.

(** Each [terminate] of the loop of [terminateAll] removes its task, so
    that the final [clear()] finds the set empty. *)
Lemma foldl_terminate_manager error (l : list nat) w :
  (∀ t, t ∈ l → is_Some (tasks w !! t)) →
  taskManager (foldl (λ w t, terminate t error w) w l)
  = filter (λ x, x ∉ l) (taskManager w).
Proof.
  revert w. induction l as [|t l IH]; intros w Hl; simpl.
  - symmetry. induction (taskManager w) as [|x m IHm]; [done|].
    rewrite filter_cons, decide_True; [by rewrite IHm | apply not_elem_of_nil].
  - destruct (Hl t) as [T HT]; [apply list_elem_of_here|].
    rewrite IH.
    + destruct (terminate_fields t T error w HT) as (_ & _ & -> & _).
      rewrite list_filter_filter. apply list_filter_iff. intros x.
      rewrite not_elem_of_cons. tauto.
    + intros t' Ht'. rewrite terminate_tasks. apply Hl. by apply list_elem_of_further.
Qed.

Lemma filter_not_in_self (l : list nat) : filter (λ x, x ∉ l) l = [].
Proof.
  assert (∀ m, m ⊆ l → filter (λ x, x ∉ l) m = []) as H; [|by apply H].
  induction m as [|x m IH]; intros Hm; [done|].
  rewrite filter_cons, decide_False.
  - apply IH. intros y Hy. apply Hm. by apply list_elem_of_further.
  - intros Hx. apply Hx, Hm, list_elem_of_here.
Qed.

Lemma good_foldl (g : World → nat → World) (l : list nat) w :
  (∀ w t, wf w ∧ tidy w → wf (g w t) ∧ tidy (g w t)) →
  wf w ∧ tidy w → wf (foldl g w l) ∧ tidy (foldl g w l).
Proof.
  intros Hg. revert w. induction l as [|t l IH]; intros w Hw; simpl; auto.
Qed.

Lemma tidy_step w ev : wf w → tidy w → tidy (step w ev).
Proof.
  intros Hw Ht. destruct ev as [options f args|k o|k|t error|t|error|]; simpl.
  - by apply tidy_constructor.
  - destruct (awaiting w !! k) as [[[t a]|]|]; try done.
    apply tidy_resume; [by apply (wf_fields w) | by apply (tidy_fields w)].
  - destruct (timers w !! k) as [tm|] eqn:Hk; [|done].
    destruct (live tm) eqn:Hlive; [|done].
    destruct (wf_timer w Hw k tm Hk Hlive) as (T & HT & Hto & Hp).
    apply (tidy_terminate_from w _ (owner tm) T); simpl; try done.
    intros k' tm0 [(<- & <- & _)|[_ Hk']]%list_lookup_insert_Some.
    + exists tm. simpl. by repeat split.
    + exists tm0. auto.
  - by apply tidy_terminate.
  - by apply tidy_rerun.
  - unfold terminateAll.
    set (x := match error with Some e => UError e | None => undefined end).
    assert (wf (foldl (λ w t, terminate t x w) w (taskManager w))
            ∧ tidy (foldl (λ w t, terminate t x w) w (taskManager w))) as [Hw' [N1 N2 N3]].
    { apply good_foldl; [|done]. intros w' t [? ?].
      split; [by apply wf_terminate | by apply tidy_terminate]. }
    assert (taskManager (foldl (λ w t, terminate t x w) w (taskManager w)) = []) as Hm.
    { rewrite foldl_terminate_manager; [apply filter_not_in_self|].
      intros t Hin. destruct (tidy_pending w Ht t Hin) as (T & -> & _). by eexists. }
    split; simpl.
    + apply NoDup_nil_2.
    + intros t Hin. by apply elem_of_nil in Hin.
    + intros k tm Hk Hlive. rewrite <- Hm. by apply (N3 k).
  - destruct (rerunAll_fields w) as (H1 & H2 & H3 & H4 & _). by apply (tidy_fields w).
Qed.

Lemma tidy_reachable w : reachable w → tidy w.
Proof.
  intros [evs ->].
  assert (∀ w, wf w → tidy w → tidy (run w evs)) as H.
  { induction evs as [|ev evs IH]; intros w Hw Ht; simpl; [done|].
    apply IH; [by apply wf_step | by apply tidy_step]. }
  apply H; [apply wf_empty | apply tidy_empty].
Qed.

(** X8.  In every world that the constructor and the events lead to, the
    manager holds no task twice and holds only tasks whose result is
    pending: a task whose result is settled has left the manager.  A timer
    that is still live belongs to a registered task with a pending result,
    and two tasks never share a result promise. *)
Theorem registered_means_pending w :
  reachable w →
  NoDup (taskManager w)
  ∧ (∀ t, t ∈ taskManager w →
       ∃ T, tasks w !! t = Some T ∧ results w !! result T = Some Pending)
  ∧ (∀ t T d, tasks w !! t = Some T → results w !! result T = Some d →
       finished d = true → t ∉ taskManager w)
  ∧ (∀ k tm, timers w !! k = Some tm → live tm = true →
       owner tm ∈ taskManager w
       ∧ ∃ T, tasks w !! owner tm = Some T ∧ timeout T = Some k
              ∧ results w !! result T = Some Pending)
  ∧ (∀ t1 t2 T1 T2, tasks w !! t1 = Some T1 → tasks w !! t2 = Some T2 →
       result T1 = result T2 → t1 = t2).
Proof.
  intros Hr. pose proof (wf_reachable w Hr) as Hw. pose proof (tidy_reachable w Hr) as Ht.
  split; [apply Ht|]. split; [apply Ht|]. split; [|split].
  - intros t T d HT Hd Hfin Hin.
    destruct (tidy_pending w Ht t Hin) as (T' & HT' & Hp).
    rewrite HT in HT'. injection HT' as <-. rewrite Hd in Hp. injection Hp as ->. done.
  - intros k tm Hk Hlive. split; [by apply (tidy_timer w Ht k) | by apply (wf_timer w Hw)].
  - intros t1 t2 T1 T2 H1 H2 Heq.
    by rewrite <- (wf_result w Hw _ _ H1), <- (wf_result w Hw _ _ H2).
Qed.

Lemma registered_means_pending_witness :
  let w := run empty_world
             [Construct (mkOptions None Raf None 100) (FnString "a") [];
              Construct (mkOptions None Mutation None 0) (FnString "b") [];
              Timeout 0] in
  taskManager w = [1] ∧ results w !! 1 = Some Pending ∧ (0 ∉ taskManager w).
Proof.
  destruct (registered_means_pending
              (run empty_world
                 [Construct (mkOptions None Raf None 100) (FnString "a") [];
                  Construct (mkOptions None Mutation None 0) (FnString "b") [];
                  Timeout 0])) as (_ & H1 & H2 & _).
  - eexists. reflexivity.
  - split; [reflexivity |]. split.
    + destruct (H1 1) as (T & HT & Hp); [apply list_elem_of_here |].
      injection HT as <-. exact Hp.
    + refine (H2 0 (mk [] Raf None "() => {return (a);}" [] (Some 0) 0 None) _ eq_refl eq_refl eq_refl).
Defined.


(** X9.  [rerunAll()] starts one run of [rerun] for each registered task,
    in the order of the set: each issues its first call, which is for the
    execution context when the task has bindings and for the utilities
    otherwise.  Nothing else changes; with no task registered nothing
    happens at all, in particular right after [terminateAll]. *)
Theorem rerunAll_starts_registered_tasks w :
  let w' := rerunAll w in
  tasks w' = tasks w ∧ results w' = results w ∧ taskManager w' = taskManager w
  ∧ timers w' = timers w ∧ boundFunctions w' = boundFunctions w
  ∧ awaiting w' = awaiting w
      ++ omap (λ t, (λ T, Some (t, first_await T)) <$> tasks w !! t) (taskManager w)
  ∧ (reachable w → length (awaiting w') = length (awaiting w) + length (taskManager w))
  ∧ (taskManager w = [] → w' = w)
  ∧ (∀ x : option Error, rerunAll (terminateAll x w) = terminateAll x w).
Proof.
  cbv zeta. destruct (rerunAll_fields w) as (H1 & H2 & H3 & H4 & H5 & H6).
  do 6 (split; [done|]). split; [|split].
  - intros Hr. apply tidy_reachable in Hr. rewrite H6, length_app. f_equal.
    assert (∀ t, t ∈ taskManager w → is_Some (tasks w !! t)) as Hex.
    { intros t Hin. destruct (tidy_pending w Hr t Hin) as (T & -> & _). by eexists. }
    revert Hex. generalize (taskManager w). intros l.
    induction l as [|t l IH]; intros Hex; [done|].
    destruct (Hex t) as [T HT]; [apply list_elem_of_here|].
    simpl. rewrite HT. simpl. f_equal. apply IH.
    intros t' Ht'. apply Hex. by apply list_elem_of_further.
  - intros Hm. unfold rerunAll. by rewrite Hm.
  - intros x. unfold rerunAll. done.
Qed.

Lemma rerunAll_starts_registered_tasks_witness :
  let w := run empty_world
             [Construct (mkOptions None Raf None 0) (FnString "a") [];
              Construct (mkOptions (Some [mkBinding "f" 1]) Mutation None 0) (FnString "b") []] in
  length (awaiting (rerunAll w)) = 4
  ∧ awaiting (rerunAll w)
    = awaiting w ++ [Some (0, PuppeteerUtil); Some (1, ExecutionContext)].
Proof.
  destruct (rerunAll_starts_registered_tasks
              (run empty_world
                 [Construct (mkOptions None Raf None 0) (FnString "a") [];
                  Construct (mkOptions (Some [mkBinding "f" 1]) Mutation None 0)
                    (FnString "b") []])) as (_ & _ & _ & _ & _ & H1 & H2 & _).
  split; [apply H2; eexists; reflexivity | exact H1].
Defined.

(** *** Terminating all tasks without an error *)

Lemma foldl_terminate_undefined_results (l : list nat) w :
  results (foldl (λ w t, terminate t undefined w) w l) = results w.
Proof.
  revert w. induction l as [|t l IH]; intros w; simpl; [done|].
  rewrite IH. destruct (tasks w !! t) as [T|] eqn:HT.
  - by destruct (terminate_fields t T undefined w HT) as (_ & -> & _).
  - by rewrite terminate_unknown_task.
Qed.

(** X10.  [terminateAll()] without an error empties the manager, cancels
    the timer of every task that was registered and asks the page to stop
    the poller of each that holds one, but settles no result: since
    [undefined] is falsy, the promises of the terminated tasks stay as they
    were. *)
Theorem terminateAll_without_error w :
  let w' := terminateAll None w in
  taskManager w' = []
  ∧ tasks w' = tasks w
  ∧ results w' = results w
  ∧ ∀ t T, t ∈ taskManager w → tasks w !! t = Some T →
      (∀ k tm, timeout T = Some k → timers w !! k = Some tm →
         timers w' !! k = Some (mkTimer (owner tm) (delay tm) false))
      ∧ (∀ h, poller T = Some h → Some (t, PollerStop h) ∈ awaiting w').
Proof.
  unfold terminateAll. simpl.
  split; [done|]. split; [apply foldl_terminate_tasks|].
  split; [apply foldl_terminate_undefined_results|].
  intros t T Hin HT. split.
  - intros k tm Hto Hk.
    by apply (proj2 (foldl_terminate_timers undefined (taskManager w) w) t T k tm).
  - intros h Hp.
    by apply (proj2 (foldl_terminate_awaiting undefined (taskManager w) w) t T h).
Qed.

Lemma terminateAll_without_error_witness :
  let w := run empty_world [Construct (mkOptions None Raf None 100) (FnString "a") []] in
  results (terminateAll None w) = [Pending]
  ∧ timers (terminateAll None w) !! 0 = Some (mkTimer 0 100 false).
Proof.
  destruct (terminateAll_without_error
              (run empty_world [Construct (mkOptions None Raf None 100) (FnString "a") []]))
    as (_ & _ & H1 & H2).
  split; [exact H1 |].
  refine (proj1 (H2 0 (mk [] Raf None "() => {return (a);}" [] (Some 0) 0 None) _ eq_refl)
            0 (mkTimer 0 100 true) eq_refl eq_refl).
  apply list_elem_of_here.
Defined.

(** *** Thrown values that are no errors *)

(** X11.  A value that is not an [Error], thrown in a run of [rerun], is
    returned by [getBadError] as it is, and the [catch] clause tests it for
    truthiness: a truthy value terminates the task and rejects its pending
    result with the value; a falsy one, such as [undefined] or the empty
    string, is dropped, and the task stays registered with its result and
    timer untouched. *)
Theorem thrown_value_is_judged_by_truthiness w k t a (v : value) :
  awaiting w !! k = Some (Some (t, a)) → in_rerun a = true →
  let w1 := set_awaiting (<[k := None]>) w in
  let w' := step w (Settle k (Throws (UValue v))) in
  getBadError (UValue v) = UValue v
  ∧ w' = (if truthy v then terminate t (UValue v) w1 else w1)
  ∧ (truthy v = true → ∀ T, tasks w !! t = Some T →
       results w !! result T = Some Pending →
       results w' !! result T = Some (Rejected (UValue v)) ∧ (t ∉ taskManager w'))
  ∧ (truthy v = false →
       tasks w' = tasks w ∧ results w' = results w ∧ taskManager w' = taskManager w
       ∧ timers w' = timers w).
Proof.
  intros Hk Ha. cbv zeta.
  assert (step w (Settle k (Throws (UValue v)))
          = if truthy v then terminate t (UValue v) (set_awaiting (<[k := None]>) w)
            else set_awaiting (<[k := None]>) w) as ->.
  { simpl. rewrite Hk. unfold resume. simpl.
    destruct (tasks w !! t) as [T|] eqn:HT.
    - destruct a; try discriminate; reflexivity.
    - destruct (truthy v); [|done]. by rewrite terminate_unknown_task by (simpl; done). }
  split; [done|]. split; [done|]. split.
  - intros Hv T HT Hp. rewrite Hv.
    assert (tasks (set_awaiting (<[k := None]>) w) !! t = Some T) as HT1 by done.
    destruct (terminate_fields t T (UValue v) _ HT1) as (_ & G2 & G3 & _).
    rewrite G2, G3. simpl. rewrite Hv.
    split; [by rewrite list_lookup_alter_eq, Hp | rewrite list_elem_of_filter; tauto].
  - by intros ->.
Qed.


Lemma thrown_value_is_judged_by_truthiness_witness :
  let w := run empty_world [Construct (mkOptions None Raf None 0) (FnString "a") []] in
  results (step w (Settle 0 (Throws (UValue (VStr "Execution context was destroyed")))))
  = [Rejected (UValue (VStr "Execution context was destroyed"))]
  ∧ results (step w (Settle 0 (Throws (UValue VUndefined)))) = [Pending].
Proof.
  destruct (thrown_value_is_judged_by_truthiness
              (run empty_world [Construct (mkOptions None Raf None 0) (FnString "a") []])
              0 0 PuppeteerUtil (VStr "Execution context was destroyed") eq_refl eq_refl)
    as (_ & H1 & _).
  destruct (thrown_value_is_judged_by_truthiness
              (run empty_world [Construct (mkOptions None Raf None 0) (FnString "a") []])
              0 0 PuppeteerUtil VUndefined eq_refl eq_refl)
    as (_ & _ & _ & H2).
  split; [by rewrite H1 | exact (proj1 (proj2 (H2 eq_refl)))].
Defined.

(** *** Timers that were cancelled *)

Lemma timers_fade_refl w : timers_fade w w.
Proof. intros k tm Hk. by exists tm. Qed.

Lemma timers_fade_trans w1 w2 w3 :
  timers_fade w1 w2 → timers_fade w2 w3 → timers_fade w1 w3.
Proof.
  intros H12 H23 k tm Hk. destruct (H12 k tm Hk) as (tm2 & Hk2 & Ho & Hd & Hl).
  destruct (H23 k tm2 Hk2) as (tm3 & Hk3 & Ho' & Hd' & Hl').
  exists tm3. repeat split; [done | congruence | congruence | auto].
Qed.

Lemma timers_fade_fields w w' : timers w' = timers w → timers_fade w w'.
Proof. intros E k tm Hk. exists tm. by rewrite E. Qed.

Lemma timers_fade_terminate t error w : timers_fade w (terminate t error w).
Proof.
  intros k tm Hk.
  destruct (terminate_timers_lookup t error w k tm Hk) as [H|H]; eexists; by rewrite H.
Qed.

Lemma timers_fade_catch t error w : timers_fade w (catch t error w).
Proof.
  destruct (catch_cases t error w) as [->|[_ ->]];
    [apply timers_fade_refl | apply timers_fade_terminate].
Qed.

Lemma timers_fade_resume t a o w : timers_fade w (resume t a o w).
Proof.
  unfold resume. destruct (tasks w !! t) as [T|]; [|apply timers_fade_refl].
  destruct a, o; try (by apply timers_fade_fields); try apply timers_fade_catch.
  - destruct (poller T); [by apply timers_fade_fields | apply timers_fade_catch].
  - eapply timers_fade_trans; [|apply timers_fade_terminate]. by apply timers_fade_fields.
  - destruct (poller T); by apply timers_fade_fields.
Qed.

Lemma timers_fade_foldl (g : World → nat → World) (l : list nat) w :
  (∀ w t, timers_fade w (g w t)) → timers_fade w (foldl g w l).
Proof.
  intros Hg. revert w. induction l as [|t l IH]; intros w; simpl.
  - apply timers_fade_refl.
  - eapply timers_fade_trans; [apply Hg | apply IH].
Qed.

Lemma timers_fade_step w ev : timers_fade w (step w ev).
Proof.
  destruct ev as [options f args|k o|k|t error|t|error|]; cbn [step].
  - pose proof (constructor_fields options f args w) as H. cbv zeta in H.
    destruct H as (_ & _ & _ & _ & G4 & _).
    intros k tm Hk. exists tm. rewrite G4.
    destruct (Number.truthy (opt_timeout options)); [|done]. split; [by apply lookup_app_l_Some | done].
  - destruct (awaiting w !! k) as [[[t a]|]|]; try apply timers_fade_refl.
    eapply timers_fade_trans; [|apply timers_fade_resume]. by apply timers_fade_fields.
  - destruct (timers w !! k) as [tm|] eqn:Hk; [|apply timers_fade_refl].
    destruct (live tm); [|apply timers_fade_refl].
    eapply timers_fade_trans; [|apply timers_fade_terminate].
    intros k' tm' Hk'. simpl. rewrite list_lookup_insert.
    destruct (decide (k = k' ∧ k < length (timers w))) as [[<- _]|_].
    + rewrite Hk in Hk'. injection Hk' as <-. eexists. by repeat split.
    + by exists tm'.
  - apply timers_fade_terminate.
  - apply timers_fade_fields. apply rerun_fields.
  - unfold terminateAll. eapply timers_fade_trans.
    + apply timers_fade_foldl. intros w' t. apply timers_fade_terminate.
    + by apply timers_fade_fields.
  - apply timers_fade_fields. apply rerunAll_fields.
Qed.

Lemma timers_fade_run w evs : timers_fade w (run w evs).
Proof.
  revert w. induction evs as [|ev evs IH]; intros w; simpl.
  - apply timers_fade_refl.
  - eapply timers_fade_trans; [apply timers_fade_step | apply IH].
Qed.

(** X12.  Once [terminate] has cleared the timeout of a task, no later
    event arms it again: after any events the timer is still there, with its
    owner and delay, and not live, and its expiry does nothing. *)
Theorem cancelled_timer_never_fires w t T k tm error evs :
  tasks w !! t = Some T → timeout T = Some k → timers w !! k = Some tm →
  let w' := run (terminate t error w) evs in
  (∃ tm', timers w' !! k = Some tm' ∧ live tm' = false ∧ owner tm' = owner tm
          ∧ delay tm' = delay tm)
  ∧ step w' (Timeout k) = w'.
Proof.
  intros HT Hto Hk. cbv zeta.
  destruct (terminate_fields t T error w HT) as (_ & _ & _ & G4 & _).
  assert (timers (terminate t error w) !! k = Some (mkTimer (owner tm) (delay tm) false)) as Hk1.
  { by rewrite G4, Hto, list_lookup_alter_eq, Hk. }
  destruct (timers_fade_run (terminate t error w) evs k _ Hk1) as (tm' & Hk' & Ho & Hd & Hl).
  assert (live tm' = false) as Hdead.
  { destruct (live tm'); [by specialize (Hl eq_refl) | done]. }
  split; [by exists tm'|]. simpl. by rewrite Hk', Hdead.
Qed.

Lemma cancelled_timer_never_fires_witness :
  let w := run empty_world [Construct (mkOptions None Raf None 100) (FnString "a") []] in
  let w' := run (terminate 0 undefined w) [RerunAll; Rerun 0] in
  step w' (Timeout 0) = w'.
Proof.
  exact (proj2 (cancelled_timer_never_fires
                  (run empty_world [Construct (mkOptions None Raf None 100) (FnString "a") []])
                  0 (mk [] Raf None "() => {return (a);}" [] (Some 0) 0 None)
                  0 (mkTimer 0 100 true) undefined [RerunAll; Rerun 0]
                  eq_refl eq_refl eq_refl)).
Defined.

(** *** The fields that the constructor sets *)

(** X13.  What the constructor stored in a task is never written again:
    after any events the task is still there with the same function source,
    arguments, polling mode, root, bindings and timeout, so that every run
    of [rerun] begins with the same call and asks for the same poller. *)
Theorem task_fields_never_change w evs t T :
  tasks w !! t = Some T →
  ∃ T', tasks (run w evs) !! t = Some T'
        ∧ fn T' = fn T ∧ args T' = args T ∧ polling T' = polling T ∧ root T' = root T
        ∧ bindings T' = bindings T ∧ timeout T' = timeout T
        ∧ request_of T' = request_of T ∧ first_await T' = first_await T.
Proof.
  intros HT. destruct (evolves_run w evs) as (Et & _ & _).
  destruct (Et t T HT) as (T' & HT' & Hs). exists T'. split; [done|].
  apply same_task_fields in Hs as (Hr & Hto & Hb & Hp & Hro & Hf & Ha).
  unfold request_of, first_await. rewrite Hf, Ha, Hp, Hro, Hb, Hto. done.
Qed.

Lemma task_fields_never_change_witness :
  let w := run empty_world
             [Construct (mkOptions None (Every 50) None 0) (FnString "a") [VNum 1]] in
  ∃ T', tasks (run w [Settle 0 (Returns 0); Settle 1 (Returns 9); Rerun 0]) !! 0 = Some T'
        ∧ request_of T' = NewIntervalPoller 50 "() => {return (a);}" [VNum 1].
Proof.
  destruct (task_fields_never_change
              (run empty_world
                 [Construct (mkOptions None (Every 50) None 0) (FnString "a") [VNum 1]])
              [Settle 0 (Returns 0); Settle 1 (Returns 9); Rerun 0]
              0 (mk [] (Every 50) None "() => {return (a);}" [VNum 1] None 0 None) eq_refl)
    as (T' & HT' & _ & _ & _ & _ & _ & _ & Hreq & _).
  exists T'. split; [exact HT' | exact Hreq].
Defined.


(** *** A run in which every call succeeds *)

Lemma insert_last {A : Type} (l : list A) (x y : A) :
  <[length l := y]> (l ++ [x]) = l ++ [y].
Proof. by rewrite list_insert_alter, alter_last. Qed.

Lemma settle_suspended w t a o n :
  length (awaiting w) = n →
  step (suspend t a w) (Settle n o)
  = resume t a o (set_awaiting (λ l, l ++ [None]) w).
Proof.
  intros <-. cbn [step]. unfold suspend, set_awaiting. simpl.
  by rewrite lookup_last, insert_last.
Qed.

Lemma set_poller_twice h h' T : set_poller h (set_poller h' T) = set_poller h T.
Proof. by destruct T. Qed.

(** The steps of a run, one call after the other. *)
Lemma settle_context w t T n x :
  tasks w !! t = Some T → length (awaiting w) = n →
  step (suspend t ExecutionContext w) (Settle n (Returns x))
  = suspend t (AddBindings x (map name (bindings T))) (set_awaiting (λ l, l ++ [None]) w).
Proof. intros HT Hn. rewrite settle_suspended by done. unfold resume. simpl. by rewrite HT. Qed.

Lemma settle_bindings w t T n c ns x :
  tasks w !! t = Some T → length (awaiting w) = n →
  step (suspend t (AddBindings c ns) w) (Settle n (Returns x))
  = suspend t PuppeteerUtil (set_awaiting (λ l, l ++ [None]) w).
Proof. intros HT Hn. rewrite settle_suspended by done. unfold resume. simpl. by rewrite HT. Qed.

Lemma settle_util w t T n x :
  tasks w !! t = Some T → length (awaiting w) = n →
  step (suspend t PuppeteerUtil w) (Settle n (Returns x))
  = suspend t (EvaluateHandle (request_of T)) (set_awaiting (λ l, l ++ [None]) w).
Proof. intros HT Hn. rewrite settle_suspended by done. unfold resume. simpl. by rewrite HT. Qed.

Lemma settle_create w t T n req h :
  tasks w !! t = Some T → length (awaiting w) = n →
  step (suspend t (EvaluateHandle req) w) (Settle n (Returns h))
  = suspend t (PollerStart h)
      (set_tasks (alter (set_poller (Some h)) t) (set_awaiting (λ l, l ++ [None]) w)).
Proof. intros HT Hn. rewrite settle_suspended by done. unfold resume. simpl. by rewrite HT. Qed.

Lemma settle_start w t T n h0 h x :
  tasks w !! t = Some T → poller T = Some h → length (awaiting w) = n →
  step (suspend t (PollerStart h0) w) (Settle n (Returns x))
  = suspend t (PollerResult h) (set_awaiting (λ l, l ++ [None]) w).
Proof.
  intros HT Hp Hn. rewrite settle_suspended by done. unfold resume. simpl.
  by rewrite HT, Hp.
Qed.

Lemma settle_result w t T n h0 h value :
  tasks w !! t = Some T → poller T = Some h → length (awaiting w) = n →
  step (suspend t (PollerResult h0) w) (Settle n (Returns value))
  = suspend t (PollerStop h)
      (match timeout T with
       | Some k => clearTimeout k
       | None => λ w, w
       end (delete t (set_results (alter (resolve value) (result T))
                        (set_awaiting (λ l, l ++ [None]) w)))).
Proof.
  intros HT Hp Hn. rewrite settle_suspended by done. unfold resume. simpl. rewrite HT.
  unfold terminate. simpl. rewrite HT, Hp. by destruct (timeout T).
Qed.

Lemma settle_stop w t T n h0 h x :
  tasks w !! t = Some T → poller T = Some h → length (awaiting w) = n →
  step (suspend t (PollerStop h0) w) (Settle n (Returns x))
  = suspend t (Dispose h) (set_awaiting (λ l, l ++ [None]) w).
Proof.
  intros HT Hp Hn. rewrite settle_suspended by done. unfold resume. simpl.
  by rewrite HT, Hp.
Qed.

Lemma settle_dispose w t T n h0 x :
  tasks w !! t = Some T → length (awaiting w) = n →
  step (suspend t (Dispose h0) w) (Settle n (Returns x))
  = set_tasks (alter (set_poller None) t) (set_awaiting (λ l, l ++ [None]) w).
Proof. intros HT Hn. rewrite settle_suspended by done. unfold resume. simpl. by rewrite HT. Qed.

Lemma run_cons w ev evs : run w (ev :: evs) = run (step w ev) evs.
Proof. done. Qed.

(** The run once its first calls are through. *)
Lemma successful_run_tail w t T n h value :
  tasks w !! t = Some T → length (awaiting w) = n →
  let w' := run (suspend t PuppeteerUtil w)
              [Settle n (Returns 0); Settle (n + 1) (Returns h); Settle (n + 2) (Returns 0);
               Settle (n + 3) (Returns value); Settle (n + 4) (Returns 0);
               Settle (n + 5) (Returns 0)] in
  tasks w' = alter (set_poller None) t (tasks w)
  ∧ results w' = alter (resolve value) (result T) (results w)
  ∧ taskManager w' = filter (λ x, x ≠ t) (taskManager w)
  ∧ timers w' = match timeout T with
                | Some k => alter (λ tm, mkTimer (owner tm) (delay tm) false) k (timers w)
                | None => timers w
                end
  ∧ boundFunctions w' = boundFunctions w
  ∧ awaiting w' = awaiting w ++ replicate 6 None.
Proof.
  intros HT Hn w'.
  assert (w' = set_tasks (alter (set_poller None) t)
                 (set_awaiting (λ l, l ++ [None])
                    (set_awaiting (λ l, l ++ [None])
                       (match timeout T with
                        | Some k => clearTimeout k
                        | None => λ w, w
                        end
                          (delete t
                             (set_results (alter (resolve value) (result T))
                                (set_awaiting (λ l, l ++ [None])
                                   (set_awaiting (λ l, l ++ [None])
                                      (set_tasks (alter (set_poller (Some h)) t)
                                         (set_awaiting (λ l, l ++ [None])
                                            (set_awaiting (λ l, l ++ [None]) w))))))))))) as ->.
  { subst w'. cbn [run foldl].
    rewrite (settle_util w t T) by done.
    set (w1 := set_awaiting (λ l, l ++ [None]) w).
    assert (length (awaiting w1) = n + 1) as Hn1.
    { subst w1. simpl. rewrite length_app. simpl. lia. }
    rewrite (settle_create w1 t T) by done.
    set (w2 := set_tasks _ (set_awaiting _ w1)).
    assert (tasks w2 !! t = Some (set_poller (Some h) T)) as HT2.
    { subst w2 w1. simpl. by rewrite list_lookup_alter_eq, HT. }
    assert (length (awaiting w2) = n + 2) as Hn2.
    { subst w2 w1. simpl. rewrite !length_app. simpl. lia. }
    rewrite (settle_start w2 t _ _ _ h) by done.
    set (w3 := set_awaiting _ w2).
    assert (length (awaiting w3) = n + 3) as Hn3.
    { subst w3 w2 w1. simpl. rewrite !length_app. simpl. lia. }
    rewrite (settle_result w3 t _ _ _ h) by done.
    cbn [timeout result set_poller].
    set (w4 := match timeout T with Some k => clearTimeout k | None => λ w, w end _).
    assert (tasks w4 !! t = Some (set_poller (Some h) T)) as HT4.
    { subst w4 w3. by destruct (timeout T). }
    assert (length (awaiting w4) = n + 4) as Hn4.
    { subst w4 w3 w2 w1. destruct (timeout T); simpl; rewrite !length_app; simpl; lia. }
    rewrite (settle_stop w4 t _ _ _ h) by done.
    set (w5 := set_awaiting _ w4).
    assert (length (awaiting w5) = n + 5) as Hn5.
    { subst w5 w4 w3 w2 w1. destruct (timeout T); simpl; rewrite !length_app; simpl; lia. }
    by rewrite (settle_dispose w5 t (set_poller (Some h) T)). }
  destruct (timeout T); simpl; rewrite list_alter_alter_eq, <- !app_assoc; simpl;
    (repeat split; try done);
    (apply list_alter_ext; [|done]); intros; simpl; apply set_poller_twice.
Qed.

(** X14.  A run of [rerun] in which every call of the page returns: the
    task asks for the execution context and adds its bindings, if it has
    any, fetches the utilities, creates the poller, starts it and reads its
    result; then the result of the task is fulfilled with the handle that
    was read, if it was pending, the task leaves the manager, its timer is
    cancelled, the poller is stopped and disposed of and the task forgets
    it.  No other task, result or timer changes, and none of the calls of
    the run is left waiting. *)
Theorem successful_run_fulfils_and_cleans_up w t T context h value :
  tasks w !! t = Some T →
  let w' := run (rerun t w) (successful_run T (length (awaiting w)) context h value) in
  tasks w' = alter (set_poller None) t (tasks w)
  ∧ results w' = alter (resolve value) (result T) (results w)
  ∧ (results w !! result T = Some Pending → results w' !! result T = Some (Fulfilled value))
  ∧ taskManager w' = filter (λ x, x ≠ t) (taskManager w)
  ∧ timers w' = match timeout T with
                | Some k => alter (λ tm, mkTimer (owner tm) (delay tm) false) k (timers w)
                | None => timers w
                end
  ∧ boundFunctions w' = boundFunctions w
  ∧ awaiting w' = awaiting w ++ replicate (length (successful_run T 0 0 0 0)) None.
Proof.
  intros HT w'.
  assert (tasks w' = alter (set_poller None) t (tasks w)
          ∧ results w' = alter (resolve value) (result T) (results w)
          ∧ taskManager w' = filter (λ x, x ≠ t) (taskManager w)
          ∧ timers w' = match timeout T with
                        | Some k =>
                          alter (λ tm, mkTimer (owner tm) (delay tm) false) k (timers w)
                        | None => timers w
                        end
          ∧ boundFunctions w' = boundFunctions w
          ∧ awaiting w' = awaiting w ++ replicate (length (successful_run T 0 0 0 0)) None)
    as (H1 & H2 & H3 & H4 & H5 & H6).
  { subst w'. rewrite rerun_first_await, HT. unfold first_await, successful_run.
    destruct (bindings T) as [|b bs] eqn:Hb.
    - by apply successful_run_tail.
    - rewrite run_cons, run_cons.
      rewrite (settle_context w t T) by done.
      set (w1 := set_awaiting (λ l, l ++ [None]) w).
      assert (length (awaiting w1) = length (awaiting w) + 1) as Hn1.
      { subst w1. simpl. rewrite length_app. simpl. lia. }
      rewrite (settle_bindings w1 t T) by done.
      set (w2 := set_awaiting _ w1).
      assert (length (awaiting w2) = length (awaiting w) + 2) as Hn2.
      { subst w2 w1. simpl. rewrite !length_app. simpl. lia. }
      pose proof (successful_run_tail w2 t T (length (awaiting w) + 2) h value HT Hn2) as Htail.
      cbv zeta in Htail.
      replace (length (awaiting w) + 2 + 1) with (length (awaiting w) + 3) in Htail by lia.
      replace (length (awaiting w) + 2 + 2) with (length (awaiting w) + 4) in Htail by lia.
      replace (length (awaiting w) + 2 + 3) with (length (awaiting w) + 5) in Htail by lia.
      replace (length (awaiting w) + 2 + 4) with (length (awaiting w) + 6) in Htail by lia.
      replace (length (awaiting w) + 2 + 5) with (length (awaiting w) + 7) in Htail by lia.
      destruct Htail as (G1 & G2 & G3 & G4 & G5 & G6).
      rewrite G1, G2, G3, G4, G5, G6. subst w2 w1. simpl. by rewrite <- !app_assoc. }
  repeat split; try done.
  intros Hp. by rewrite H2, list_lookup_alter_eq, Hp.
Qed.

Lemma successful_run_fulfils_and_cleans_up_witness :
  let w := run empty_world
             [Construct (mkOptions (Some [mkBinding "log" 1]) Mutation None 500)
                (FnString "a") [];
              Settle 0 (Throws (UError (mkError ClsError "Execution context was destroyed")))] in
  let T := mk [mkBinding "log" 1] Mutation None "() => {return (a);}" [] (Some 0) 0 None in
  let w' := run (rerun 0 w) (successful_run T (length (awaiting w)) 5 11 42) in
  tasks w !! 0 = Some T
  ∧ results w !! result T = Some Pending
  ∧ results w' !! result T = Some (Fulfilled 42)
  ∧ taskManager w' = filter (λ x, x ≠ 0) (taskManager w).
Proof.
  intros w T w'.
  assert (tasks w !! 0 = Some T) as HT by (vm_compute; reflexivity).
  assert (results w !! result T = Some Pending) as Hp by (vm_compute; reflexivity).
  destruct (successful_run_fulfils_and_cleans_up w 0 T 5 11 42 HT)
    as (_ & _ & H1 & H2 & _).
  split; [exact HT | split; [exact Hp | split; [exact (H1 Hp) | exact H2]]].
Defined.


(** *** What the constructor registers *)

Lemma constructor_boundFunctions options f args w :
  boundFunctions (constructor options f args w).2
  = foldl (λ m b, <[name b := b]> m) (boundFunctions w) (default [] (opt_bindings options)).
Proof.
  unfold constructor. cbn [snd].
  match goal with |- context [rerun ?t0 ?w0] =>
    destruct (rerun_fields t0 w0) as (_ & _ & _ & _ & -> & _) end.
  destruct (Number.truthy (opt_timeout options)), (opt_bindings options) as [[|b bs]|]; done.
Qed.

Lemma foldl_insert_lookup (bs : list Binding) (m : gmap string Binding) (n : string) :
  foldl (λ m b, <[name b := b]> m) m bs !! n
  = match last (filter (λ b, name b = n) bs) with
    | Some b => Some b
    | None => m !! n
    end.
Proof.
  induction bs as [|b bs IH] using rev_ind; [done|].
  rewrite foldl_app, filter_app. simpl. rewrite filter_cons, filter_nil, lookup_insert.
  destruct (decide (name b = n)) as [Hn|Hn].
  - by rewrite last_snoc.
  - by rewrite app_nil_r.
Qed.

Lemma filter_none {A : Type} (P : A → Prop) `{!∀ x, Decision (P x)} (l : list A) :
  (∀ x, x ∈ l → ¬ P x) → filter P l = [].
Proof.
  induction l as [|x l IH]; intros Hall; [done|].
  rewrite filter_cons, decide_False by (apply Hall, list_elem_of_here).
  apply IH. intros y Hy. apply Hall. by apply list_elem_of_further.
Qed.

Lemma filter_name_unique (bs : list Binding) (b : Binding) :
  NoDup (name <$> bs) → b ∈ bs → filter (λ b', name b' = name b) bs = [b].
Proof.
  induction bs as [|a bs IH]; intros Hnd Hin; [by apply elem_of_nil in Hin|].
  rewrite fmap_cons in Hnd. apply NoDup_cons in Hnd as [Hna Hnd].
  rewrite filter_cons. apply elem_of_cons in Hin as [->|Hin].
  - rewrite decide_True by done. f_equal. apply filter_none.
    intros x Hx Heq. apply Hna. rewrite <- Heq. by apply list_elem_of_fmap_2.
  - rewrite decide_False; [by apply IH|].
    intros Heq. apply Hna. rewrite Heq. by apply list_elem_of_fmap_2.
Qed.

Lemma boundFunctions_terminate t error w :
  boundFunctions (terminate t error w) = boundFunctions w.
Proof.
  destruct (tasks w !! t) as [T|] eqn:HT.
  - apply (terminate_fields t T error w HT).
  - by rewrite terminate_unknown_task.
Qed.

Lemma boundFunctions_resume t a o w :
  boundFunctions (resume t a o w) = boundFunctions w.
Proof.
  assert (∀ x w0, boundFunctions (catch t x w0) = boundFunctions w0) as Hcatch.
  { intros x w0. destruct (catch_cases t x w0) as [->|[_ ->]];
      [done | apply boundFunctions_terminate]. }
  unfold resume. destruct (tasks w !! t) as [T|]; [|done].
  destruct a, o; try done; try apply Hcatch.
  - destruct (poller T); [done | apply Hcatch].
  - by rewrite boundFunctions_terminate.
  - by destruct (poller T).
Qed.

Lemma boundFunctions_step w ev :
  created ev = 0 → boundFunctions (step w ev) = boundFunctions w.
Proof.
  destruct ev as [options f args|k o|k|t error|t|error|]; cbn [step created]; intros Hc.
  - done.
  - destruct (awaiting w !! k) as [[[t a]|]|]; try done. by rewrite boundFunctions_resume.
  - destruct (timers w !! k) as [tm|]; [|done]. destruct (live tm); [|done].
    by rewrite boundFunctions_terminate.
  - apply boundFunctions_terminate.
  - apply rerun_fields.
  - unfold terminateAll. simpl.
    generalize (taskManager w). intros l. revert w.
    induction l as [|t l IH]; intros w; simpl; [done|].
    by rewrite IH, boundFunctions_terminate.
  - apply rerunAll_fields.
Qed.

(** X15.  The constructor stores each binding of the options in the bound
    functions of the world under its name, the later of two bindings of one
    name winning, and leaves all other names as they were; no other event
    writes to the bound functions. *)
Theorem constructor_exposes_bindings options f args w :
  let w' := (constructor options f args w).2 in
  let bs := default [] (opt_bindings options) in
  (∀ n, boundFunctions w' !! n
        = match last (filter (λ b, name b = n) bs) with
          | Some b => Some b
          | None => boundFunctions w !! n
          end)
  ∧ (∀ b, NoDup (name <$> bs) → b ∈ bs → boundFunctions w' !! name b = Some b)
  ∧ (∀ n, n ∉ name <$> bs → boundFunctions w' !! n = boundFunctions w !! n)
  ∧ (∀ w0 ev, created ev = 0 → boundFunctions (step w0 ev) = boundFunctions w0).
Proof.
  cbv zeta. rewrite constructor_boundFunctions.
  split; [|split; [|split]].
  - intros n. apply foldl_insert_lookup.
  - intros b Hnd Hin. by rewrite foldl_insert_lookup, filter_name_unique.
  - intros n Hn. rewrite foldl_insert_lookup, filter_none; [done|].
    intros b Hb Heq. apply Hn. rewrite <- Heq. by apply list_elem_of_fmap_2.
  - apply boundFunctions_step.
Qed.

Lemma constructor_exposes_bindings_witness :
  let w' := (constructor (mkOptions (Some [mkBinding "log" 1; mkBinding "emit" 2])
                            Raf None 0) (FnString "a") [] empty_world).2 in
  boundFunctions w' !! "emit" = Some (mkBinding "emit" 2)
  ∧ boundFunctions w' !! "other" = None.
Proof.
  destruct (constructor_exposes_bindings
              (mkOptions (Some [mkBinding "log" 1; mkBinding "emit" 2]) Raf None 0)
              (FnString "a") [] empty_world) as (_ & H1 & H2 & _).
  split.
  - apply (H1 (mkBinding "emit" 2)).
    + simpl. repeat constructor; rewrite ?elem_of_cons, ?elem_of_nil; intros Hx; by intuition.
    + apply list_elem_of_further, list_elem_of_here.
  - rewrite H2; [reflexivity |].
    simpl. rewrite !elem_of_cons, elem_of_nil. intros Hx. by intuition.
Defined.

(** X16.  In a world that the constructor and the events lead to, the
    constructor makes a task that was not there: it is appended to the
    manager, its result is a new pending promise, it holds no poller, and
    its first call is issued.  The tasks and promises that were there are
    kept, and the new world is reachable as well. *)
Theorem constructor_registers_fresh_task options f args w :
  reachable w →
  let t := (constructor options f args w).1 in
  let w' := (constructor options f args w).2 in
  tasks w !! t = None
  ∧ (t ∉ taskManager w)
  ∧ taskManager w' = taskManager w ++ [t]
  ∧ (∃ T, tasks w' !! t = Some T
          ∧ results w !! result T = None
          ∧ results w' !! result T = Some Pending
          ∧ poller T = None
          ∧ polling T = opt_polling options ∧ WaitTask.args T = args
          ∧ awaiting w' = awaiting w ++ [Some (t, first_await T)])
  ∧ (∀ t' T', tasks w !! t' = Some T' → tasks w' !! t' = Some T')
  ∧ (∀ r d, results w !! r = Some d → results w' !! r = Some d)
  ∧ reachable w'.
Proof.
  intros Hr. pose proof (wf_reachable w Hr) as Hw.
  pose proof (constructor_fields options f args w) as H. cbv zeta in H.
  destruct H as (G0 & G1 & G2 & G3 & G4 & G5). cbv zeta. rewrite G0.
  assert (length (tasks w) ∉ taskManager w) as Hfresh.
  { intros Hin. apply (wf_manager w Hw) in Hin. lia. }
  split; [by apply lookup_ge_None_2|]. split; [done|].
  split; [by rewrite G3, bool_decide_eq_false_2|].
  split.
  { eexists. split; [rewrite G1; apply lookup_last|].
    rewrite G2, G5. cbn [result poller polling WaitTask.args bindings].
    split; [by apply lookup_ge_None_2|]. split; [apply lookup_last|]. done. }
  split; [intros t' T' HT'; rewrite G1; by apply lookup_app_l_Some|].
  split; [intros r d Hd; rewrite G2; by apply lookup_app_l_Some|].
  destruct Hr as [evs ->]. exists (evs ++ [Construct options f args]).
  unfold run. by rewrite foldl_app.
Qed.

Lemma constructor_registers_fresh_task_witness :
  let w := run empty_world [Construct (mkOptions None Raf None 0) (FnString "a") []] in
  taskManager (constructor (mkOptions None Mutation None 0) (FnString "b") [] w).2 = [0; 1].
Proof.
  destruct (constructor_registers_fresh_task (mkOptions None Mutation None 0) (FnString "b") []
              (run empty_world [Construct (mkOptions None Raf None 0) (FnString "a") []]))
    as (_ & _ & H & _).
  - eexists. reflexivity.
  - exact H.
Defined.

End TaskManagerAtWork.
